(** * Hybrid retrieval engine of Synapse: a shallow embedding of
    [chat_core/kb/retriever.py] and the properties of its specification.

    Conventions of the embedding.
    - Python floats and NumPy float32 arrays are modelled as exact rationals
      ([Q]); rounding, infinities and NaN are not modelled.
    - Python exceptions are values of [PyExc]; a computation that may raise
      has type [result A].
    - The third-party capabilities (sentence embedding model, FAISS index,
      BM25 scorer, cross-encoder) are fields of the retriever record.  The
      field [model] stands for [model.encode] followed by the L2
      normalisation of lines 102-103 and 217-218, because square roots leave
      the rationals. *)

From Stdlib Require Import List ZArith QArith Qminmax String Ascii Bool Lia Lqa Arith.
From Stdlib Require Import Sorted Permutation.
Import ListNotations.

Set Implicit Arguments.

(** ** Python and NumPy primitives used by the retriever *)

Module Py.

(** The exception classes that the modelled code can raise. *)
Inductive PyExc : Type :=
| FileNotFoundError
| ValueError
| IndexError.


(** A computation that returns a value or raises. *)
Inductive result (A : Type) : Type :=
| Raise (e : PyExc)
| Return (a : A).

Arguments Raise {A} e.
Arguments Return {A} a.

Definition bind {A B} (m : result A) (k : A -> result B) : result B :=
  match m with
  | Raise e => Raise e
  | Return a => k a
  end.

(** [[f(x) for x in l]] where [f] may raise. *)
Fixpoint mapM {A B} (f : A -> result B) (l : list A) : result (list B) :=
  match l with
  | [] => Return []
  | x :: r =>
      bind (f x) (fun y => bind (mapM f r) (fun ys => Return (y :: ys)))
  end.

(** [l[i]] for a non-negative index. *)
Definition getitem {A} (l : list A) (i : nat) : result A :=
  match nth_error l i with
  | Some x => Return x
  | None => Raise IndexError
  end.

(** [l[:n]]: a negative stop counts from the end. *)
Definition slice_to {A} (n : Z) (l : list A) : list A :=
  if (0 <=? n)%Z then firstn (Z.to_nat n) l
  else firstn (Z.to_nat (Z.of_nat (List.length l) + n)) l.

(** *** Strings (ASCII) *)

(** [str.isspace] on the ASCII range. *)
Definition isspace (c : ascii) : bool :=
  let n := nat_of_ascii c in
  ((9 <=? n) && (n <=? 13)) || ((28 <=? n) && (n <=? 32)).

Definition isupper (c : ascii) : bool :=
  let n := nat_of_ascii c in (65 <=? n) && (n <=? 90).

Definition isalnum (c : ascii) : bool :=
  let n := nat_of_ascii c in
  ((48 <=? n) && (n <=? 57)) || ((65 <=? n) && (n <=? 90))
  || ((97 <=? n) && (n <=? 122)).

Definition lower_char (c : ascii) : ascii :=
  if isupper c then ascii_of_nat (nat_of_ascii c + 32) else c.

(** [s.lower()] *)
Definition lower (s : string) : string :=
  string_of_list_ascii (map lower_char (list_ascii_of_string s)).

(** Splitting into maximal runs of characters that satisfy [keep]:
    [cur] is the run being read, in reverse. *)
Fixpoint runs (keep : ascii -> bool) (cur : list ascii) (s : list ascii)
  : list (list ascii) :=
  match s with
  | [] => match cur with [] => [] | _ => [rev cur] end
  | c :: r =>
      if keep c then runs keep (c :: cur) r
      else match cur with
           | [] => runs keep [] r
           | _ => rev cur :: runs keep [] r
           end
  end.

(** [s.split()]: split on runs of whitespace, no empty strings. *)
Definition split (s : string) : list string :=
  map string_of_list_ascii
      (runs (fun c => negb (isspace c)) [] (list_ascii_of_string s)).

(** [re.findall(r"[A-Za-z0-9]+", s)] *)
Definition findall_alnum (s : string) : list string :=
  map string_of_list_ascii (runs isalnum [] (list_ascii_of_string s)).

Fixpoint lstrip (s : list ascii) : list ascii :=
  match s with
  | c :: r => if isspace c then lstrip r else s
  | [] => []
  end.

(** [s.strip()] *)
Definition strip (s : string) : string :=
  string_of_list_ascii
    (rev (lstrip (rev (lstrip (list_ascii_of_string s))))).

(** *** Numbers *)

Definition Qlt_bool (x y : Q) : bool := negb (Qle_bool y x).

(** [np.min] and [np.max] of an array; both call sites guard against the
    empty array, for which the value below is arbitrary. *)
Definition np_min (l : list Q) : Q :=
  match l with
  | [] => 0
  | x :: r => fold_left (fun m y => if Qlt_bool y m then y else m) r x
  end.

Definition np_max (l : list Q) : Q :=
  match l with
  | [] => 0
  | x :: r => fold_left (fun m y => if Qlt_bool m y then y else m) r x
  end.

(** [a @ b] on vectors of one dimension. *)
Fixpoint dot (a b : list Q) : Q :=
  match a, b with
  | x :: a', y :: b' => x * y + dot a' b'
  | _, _ => 0
  end.

(** *** Stable sorting

    [list.sort(key=..., reverse=True)] is stable and keeps the original
    order of elements with equal keys.  [np.argsort(-a)] is modelled by the
    same stable sort of the positions, lower position first among equal
    values (NumPy leaves the order of ties open). *)
Section StableSort.
Variable A : Type.
Variable key : A -> Q.

(** [x] comes from before the elements of [l] in the original list: it
    goes behind the larger keys and in front of the equal ones. *)
Fixpoint insert_desc (x : A) (l : list A) : list A :=
  match l with
  | [] => [x]
  | y :: r =>
      if Qlt_bool (key x) (key y) then y :: insert_desc x r
      else x :: y :: r
  end.

Definition sort_desc (l : list A) : list A :=
  fold_right insert_desc [] l.
End StableSort.

Definition argsort_desc (a : list Q) : list nat :=
  sort_desc (fun i => nth i a 0) (seq 0 (List.length a)).

(** [sorted(set(l))] on non-negative integers. *)
Fixpoint insert_uniq (x : nat) (l : list nat) : list nat :=
  match l with
  | [] => [x]
  | y :: r =>
      if x <? y then x :: y :: r
      else if x =? y then y :: r
      else y :: insert_uniq x r
  end.

Definition sorted_set (l : list nat) : list nat :=
  fold_right insert_uniq [] l.

(** *** Dictionaries with insertion order *)
Section Dict.
Variables K V : Type.
Variable eqb : K -> K -> bool.

Fixpoint dict_set (k : K) (v : V) (d : list (K * V)) : list (K * V) :=
  match d with
  | [] => [(k, v)]
  | (k', v') :: r =>
      if eqb k k' then (k, v) :: r else (k', v') :: dict_set k v r
  end.

Fixpoint dict_get (k : K) (d : list (K * V)) : option V :=
  match d with
  | [] => None
  | (k', v) :: r => if eqb k k' then Some v else dict_get k r
  end.

(** [dict(pairs)]: a later pair overwrites an earlier one. *)
Definition dict_of (pairs : list (K * V)) : list (K * V) :=
  fold_left (fun d kv => dict_set (fst kv) (snd kv) d) pairs [].

Definition dict_keys (d : list (K * V)) : list K := map fst d.
End Dict.

End Py.

Import Py.

Notation "x <- m ;; k" := (bind m (fun x => k))
  (at level 61, m at next level, right associativity).

(** ** Data model *)

(** One record of [meta.json], as written by [index_kb.py].  [None] is a
    missing key or a JSON null. *)
Module Chunk.
Record t : Type := mk {
  doc : string;
  title : option string;
  chunk_id : Z;
  text : option string;
  id : string
}.
End Chunk.

(** A row of the list that [_hybrid_rank] returns:
    [(chunk_idx, vec_norm, bm25_norm, fused_hybrid, title_sim_norm,
      total_score)]. *)
Record RankedRow : Type := mkRow {
  chunk_idx : nat;
  vec_norm : Q;
  bm25_norm : Q;
  fused_hybrid : Q;
  title_sim_norm : Q;
  total_score : Q
}.

(** A result of [search]: the chunk's record and the five score keys. *)
Record SearchResult : Type := mkResult {
  chunk : Chunk.t;
  score_vec_norm : Q;
  score_bm25_norm : Q;
  score_hybrid : Q;
  score_title : Q;
  score_total : Q
}.

(** [CrossEncoder.predict]: [None] when the call raises. *)
Definition Reranker : Type := list (string * string) -> option (list Q).

(** The attributes of a [Retriever] instance. *)
Record Retriever : Type := mkRetriever {
  top_k : Z;
  alpha_hybrid : Q;
  vec_k : Z;
  bm25_k : Z;
  mmr_lambda : Q;
  mmr_pool : Z;
  reranker_model_name : option string;
  rerank_from : Z;
  title_boost : Q;
  title_k : Z;
  use_titles : bool;
  model : string -> list Q;
  index : list Q -> Z -> list Q * list Z;
  meta : list Chunk.t;
  _texts : list string;
  _titles_list : list string;
  _title_to_row : list (string * nat);
  _titles_vecs : option (list (list Q));
  _bm25 : option (list string -> list Q);
  _reranker : option Reranker
}.

(** ** Utilities *)

Definition eps : Q := 1 # 1000000000000.

Definition _encode_query (self : Retriever) (query : string) : list Q :=
  model self query.

Definition _minmax (arr : list Q) : list Q :=
  match arr with
  | [] => arr
  | _ :: _ =>
      let mn := np_min arr in
      let mx := np_max arr in
      if Qlt_bool (mx - mn) eps then map (fun _ => 0) arr
      else map (fun x => (x - mn) / (mx - mn + eps)) arr
  end.

Definition map2 {A B C} (f : A -> B -> C) (l1 : list A) (l2 : list B)
  : list C :=
  map (fun p => f (fst p) (snd p)) (combine l1 l2).

Definition or_else {A} (o : option A) (d : A) : A :=
  match o with Some a => a | None => d end.

(** ** Title similarity *)

(** [np.argpartition(-sims, kth)]: the descending sort is one admissible
    partition; [kth] out of bounds raises. *)
Definition argpartition_desc (sims : list Q) (kth : Z) : result (list nat) :=
  let n := Z.of_nat (List.length sims) in
  if ((- n <=? kth) && (kth <? n))%Z then Return (argsort_desc sims)
  else Raise ValueError.

Definition _title_sim (self : Retriever) (q : list Q)
  : result (list (string * Q)) :=
  match _titles_vecs self with
  | None => Return []
  | Some tv =>
      if negb (use_titles self) || (List.length (_titles_list self) =? 0)%nat
      then Return []
      else
        let sims := map (fun row => dot row q) tv in
        if (negb (title_k self =? 0) &&
            (title_k self <? Z.of_nat (List.length sims)))%Z
        then
          order <- argpartition_desc sims (title_k self) ;;
          let top_idx := slice_to (title_k self) order in
          let sims_small := map (fun i => nth i sims 0) top_idx in
          let sims_norm := _minmax sims_small in
          pairs <- mapM (fun ji =>
                           t <- getitem (_titles_list self) (snd ji) ;;
                           Return (t, nth (fst ji) sims_norm 0))
                        (combine (seq 0 (List.length top_idx)) top_idx) ;;
          Return (dict_of String.eqb pairs)
        else
          let sims_norm := _minmax sims in
          pairs <- mapM (fun i =>
                           s <- getitem sims_norm i ;;
                           Return (nth i (_titles_list self) EmptyString, s))
                        (seq 0 (List.length (_titles_list self))) ;;
          Return (dict_of String.eqb pairs)
  end.

(** ** Hybrid rank (vector + BM25 + title boost) *)

(** Lines 145-150: the dense candidates, as the dictionary [vec_map]. *)
Definition vec_map (self : Retriever) (query : string) : list (nat * Q) :=
  let q := _encode_query self query in
  let k := Z.min (vec_k self) (Z.of_nat (List.length (meta self))) in
  let DI := index self q k in
  let vec_ids := map Z.to_nat (filter (fun i => (0 <=? i)%Z) (snd DI)) in
  let vec_scores := slice_to (Z.of_nat (List.length vec_ids)) (fst DI) in
  dict_of Nat.eqb (combine vec_ids vec_scores).

(** The tokens that the sparse path passes to the scorer (line 156). *)
Definition query_tokens (query : string) : list string :=
  split (lower query).

(** Lines 153-159: [bm25_ids] and [bm25_map]. *)
Definition bm25_search (self : Retriever) (query : string)
  : list nat * list (nat * Q) :=
  match _bm25 self with
  | None => ([], [])
  | Some get_scores =>
      let bm := get_scores (query_tokens query) in
      let top_bm :=
        slice_to (Z.min (bm25_k self) (Z.of_nat (List.length bm)))
                 (argsort_desc bm) in
      (top_bm, dict_of Nat.eqb (map (fun i => (i, nth i bm 0)) top_bm))
  end.

(** Line 162: the candidate union. *)
Definition cand_list (self : Retriever) (query : string) : list nat :=
  sorted_set (dict_keys (vec_map self query) ++ fst (bm25_search self query)).

(** Lines 167-168: the raw score of every candidate on each axis. *)
Definition v_arr (self : Retriever) (query : string) : list Q :=
  map (fun i => or_else (dict_get Nat.eqb i (vec_map self query)) 0)
      (cand_list self query).

Definition b_arr (self : Retriever) (query : string) : list Q :=
  map (fun i => or_else (dict_get Nat.eqb i (snd (bm25_search self query))) 0)
      (cand_list self query).

(** Line 171 on the normalised axes. *)
Definition fuse (alpha : Q) (v b : list Q) : list Q :=
  map2 (fun x y => alpha * x + (1 - alpha) * y) (_minmax v) (_minmax b).

(** Lines 174-181. *)
Definition title_boosts (self : Retriever) (query : string)
  : result (list Q) :=
  let zeros := map (fun _ => 0) (cand_list self query) in
  match use_titles self, _titles_vecs self with
  | true, Some _ =>
      tmap <- _title_sim self (_encode_query self query) ;;
      match tmap with
      | [] => Return zeros
      | _ :: _ =>
          mapM (fun ci =>
                  m <- getitem (meta self) ci ;;
                  let t := strip (or_else (Chunk.title m) EmptyString) in
                  if String.eqb t EmptyString then Return 0
                  else match dict_get String.eqb t tmap with
                       | Some s => Return (s * title_boost self)
                       | None => Return 0
                       end)
               (cand_list self query)
      end
  | _, _ => Return zeros
  end.

Definition zip_rows (c : list nat) (v b f t tot : list Q) : list RankedRow :=
  map (fun p =>
         match p with
         | (((((ci, vi), bi), fi), ti), toti) => mkRow ci vi bi fi ti toti
         end)
      (combine (combine (combine (combine (combine c v) b) f) t) tot).

Definition _hybrid_rank (self : Retriever) (query : string)
  : result (list RankedRow) :=
  match meta self with
  | [] => Return []
  | _ :: _ =>
      match cand_list self query with
      | [] => Return []
      | _ :: _ =>
          let v_norm := _minmax (v_arr self query) in
          let b_norm := _minmax (b_arr self query) in
          let fused :=
            fuse (alpha_hybrid self) (v_arr self query) (b_arr self query) in
          tb <- title_boosts self query ;;
          let total := map2 Qplus fused tb in
          let ranked :=
            zip_rows (cand_list self query) v_norm b_norm fused tb total in
          Return (sort_desc total_score ranked)
      end
  end.

(** ** Optional cross-encoder rerank *)

Definition _rerank (self : Retriever) (query : string)
           (candidates : list nat) (limit : Z) : result (list nat) :=
  match candidates, _reranker self with
  | [], _ => Return (slice_to limit candidates)
  | _, None => Return (slice_to limit candidates)
  | _ :: _, Some predict =>
      pairs <- mapM (fun i =>
                       t <- getitem (_texts self) i ;; Return (query, t))
                    candidates ;;
      (* the [try] block: any exception inside gives the pass-through *)
      match predict pairs with
      | None => Return (slice_to limit candidates)
      | Some scores =>
          let order := argsort_desc scores in
          match mapM (getitem candidates) (slice_to limit order) with
          | Return reordered => Return reordered
          | Raise _ => Return (slice_to limit candidates)
          end
      end
  end.

(** ** MMR selection *)

Definition sentinel : Q := - (1000000000 # 1).

(** [sim_dd[i, sel_idx]]: the entries of row [i] at the selected
    positions, in position order. *)
Definition masked (mask : list bool) (row : list Q) : list Q :=
  map snd (filter fst (combine mask row)).

(** Lines 232-236: the score of position [i] in one pass. *)
Definition mmr_of (lambda_mult : Q) (sim_q : list Q) (sim_dd : list (list Q))
           (selected : list nat) (selected_mask : list bool) (i : nat) : Q :=
  let div_pen :=
    match selected with
    | [] => 0
    | _ :: _ => np_max (masked selected_mask (nth i sim_dd []))
    end in
  lambda_mult * nth i sim_q 0 - (1 - lambda_mult) * div_pen.

(** Lines 228-238: the inner loop; [None] is [best_i == -1]. *)
Definition mmr_pass (lambda_mult : Q) (sim_q : list Q)
           (sim_dd : list (list Q)) (selected : list nat)
           (selected_mask : list bool) (n : nat) : option nat * Q :=
  fold_left
    (fun best i =>
       if nth i selected_mask false then best
       else
         let mmr := mmr_of lambda_mult sim_q sim_dd selected selected_mask i in
         if Qlt_bool (snd best) mmr then (Some i, mmr) else best)
    (seq 0 n) (None, sentinel).

Fixpoint set_true (i : nat) (mask : list bool) : list bool :=
  match mask, i with
  | [], _ => []
  | _ :: r, O => true :: r
  | b :: r, S j => b :: set_true j r
  end.

(** Lines 227-242: the outer loop, [steps] iterations left. *)
Fixpoint mmr_loop (lambda_mult : Q) (candidate_ids : list nat)
         (sim_q : list Q) (sim_dd : list (list Q)) (steps : nat)
         (selected : list nat) (selected_mask : list bool) : list nat :=
  match steps with
  | O => selected
  | S steps' =>
      match fst (mmr_pass lambda_mult sim_q sim_dd selected selected_mask
                          (List.length candidate_ids)) with
      | None => selected
      | Some best_i =>
          mmr_loop lambda_mult candidate_ids sim_q sim_dd steps'
                   (selected ++ [nth best_i candidate_ids O])
                   (set_true best_i selected_mask)
      end
  end.

(** Lines 215-222: the similarity tables of a pool. *)
Definition sim_q_of (cand_vecs : list (list Q)) (qv : list Q) : list Q :=
  map (fun v => dot v qv) cand_vecs.

Definition sim_dd_of (cand_vecs : list (list Q)) : list (list Q) :=
  map (fun v => map (fun w => dot v w) cand_vecs) cand_vecs.

Definition _mmr (self : Retriever) (query_vec : list Q)
           (candidate_ids : list nat) (k : Z) (lambda_mult : Q)
  : result (list nat) :=
  match candidate_ids with
  | [] => Return []
  | _ :: _ =>
      let k := Z.max 1 (Z.min k (Z.of_nat (List.length candidate_ids))) in
      cand_texts <- mapM (getitem (_texts self)) candidate_ids ;;
      let cand_vecs := map (model self) cand_texts in
      Return (mmr_loop lambda_mult candidate_ids
                       (sim_q_of cand_vecs query_vec) (sim_dd_of cand_vecs)
                       (Z.to_nat k) []
                       (repeat false (List.length candidate_ids)))
  end.

(** ** Public search *)

(** Lines 256-260: the pool handed to the MMR selector. *)
Definition search_pool (self : Retriever) (query : string)
           (ranked : list RankedRow) : result (list nat) :=
  let pool :=
    map chunk_idx
        (slice_to (Z.max (mmr_pool self) (rerank_from self)) ranked) in
  match _reranker self, pool with
  | Some _, _ :: _ =>
      _rerank self query pool (Z.of_nat (List.length pool))
  | _, _ => Return pool
  end.

Definition build_result (self : Retriever) (ranked : list RankedRow)
           (idx : nat) : result SearchResult :=
  m <- getitem (meta self) idx ;;
  let hybrid_map := dict_of Nat.eqb (map (fun r => (chunk_idx r, r)) ranked) in
  match dict_get Nat.eqb idx hybrid_map with
  | Some r =>
      Return (mkResult m (vec_norm r) (bm25_norm r) (fused_hybrid r)
                       (title_sim_norm r) (total_score r))
  | None => Return (mkResult m 0 0 0 0 0)
  end.

Definition search (self : Retriever) (query : string) (top_k_arg : option Z)
  : result (list SearchResult) :=
  let k_final := or_else top_k_arg (top_k self) in
  ranked <- _hybrid_rank self query ;;
  match ranked with
  | [] => Return []
  | _ :: _ =>
      pool <- search_pool self query ranked ;;
      let qv := _encode_query self query in
      final_ids <- _mmr self qv pool k_final (mmr_lambda self) ;;
      mapM (build_result self ranked) final_ids
  end.

(** ** Construction *)

(** An environment variable read through [int(...)] or [float(...)]:
    unset, set to text the conversion rejects, or set to a value. *)
Inductive knob (A : Type) : Type :=
| Unset
| Malformed
| Given (a : A).

Arguments Unset {A}.
Arguments Malformed {A}.
Arguments Given {A} a.

Definition read_knob {A} (k : knob A) (default : A) : result A :=
  match k with
  | Unset => Return default
  | Malformed => Raise ValueError
  | Given a => Return a
  end.

(** What the constructor reads: [os.environ], the files next to the
    module, and the optional imports. *)
Record World : Type := mkWorld {
  RAG_ALPHA : knob Q;
  RAG_VEC_K : knob Z;
  RAG_BM25_K : knob Z;
  RAG_MMR_LAMBDA : knob Q;
  RAG_MMR_POOL : knob Z;
  RAG_RERANKER : option string;
  RAG_RERANK_FROM : knob Z;
  RAG_TITLE_BOOST : knob Q;
  RAG_TITLE_K : knob Z;
  RAG_USE_TITLES : option string;
  (* [faiss.index] and [meta.json], when they are files *)
  INDEX_PATH : option (list Q -> Z -> list Q * list Z);
  META_PATH : option (list Chunk.t);
  (* [titles.npy]: absent, or a file whose load fails ([None]) or gives
     a matrix *)
  TITLES_NPY : option (option (list (list Q)));
  SentenceTransformer : string -> list Q;
  BM25Okapi : option (list (list string) -> list string -> list Q);
  CrossEncoder : option (string -> option Reranker)
}.

(** Lines 64-70: distinct stripped titles in first-seen order. *)
Definition collect_titles (meta : list Chunk.t)
  : list string * list (string * nat) :=
  fold_left
    (fun acc m =>
       let t := strip (or_else (Chunk.title m) EmptyString) in
       if String.eqb t EmptyString then acc
       else match dict_get String.eqb t (snd acc) with
            | Some _ => acc
            | None =>
                (fst acc ++ [t],
                 dict_set String.eqb t (List.length (fst acc)) (snd acc))
            end)
    meta ([], []).

Definition __init__ (w : World) (top_k : Z) : result Retriever :=
  alpha_hybrid <- read_knob (RAG_ALPHA w) (6 # 10) ;;
  vec_k <- read_knob (RAG_VEC_K w) (Z.max (top_k * 5) 50) ;;
  bm25_k <- read_knob (RAG_BM25_K w) (Z.max (top_k * 5) 50) ;;
  mmr_lambda <- read_knob (RAG_MMR_LAMBDA w) (6 # 10) ;;
  mmr_pool <- read_knob (RAG_MMR_POOL w) (Z.max (top_k * 3) 15) ;;
  let reranker_model_name :=
    let s := strip (or_else (RAG_RERANKER w) EmptyString) in
    if String.eqb s EmptyString then None else Some s in
  rerank_from <- read_knob (RAG_RERANK_FROM w) (Z.max (top_k * 5) 20) ;;
  title_boost <- read_knob (RAG_TITLE_BOOST w) (1 # 4) ;;
  title_k <- read_knob (RAG_TITLE_K w) 64%Z ;;
  let use_titles :=
    let s := or_else (RAG_USE_TITLES w) "1"%string in
    negb (String.eqb s "0" || String.eqb s "false" || String.eqb s "False") in
  match INDEX_PATH w, META_PATH w with
  | Some index, Some meta =>
      let texts := map (fun m => or_else (Chunk.text m) EmptyString) meta in
      let titles :=
        match use_titles, TITLES_NPY w with
        | true, Some loaded =>
            let tl := collect_titles meta in
            match loaded with
            | Some vecs =>
                if negb (List.length vecs =? List.length (fst tl))%nat
                then (tl, None, false)
                else (tl, Some vecs, true)
            | None => (tl, None, false)
            end
        | _, _ => (([], []), None, false)
        end in
      let bm25 :=
        match texts, BM25Okapi w with
        | _ :: _, Some build =>
            Some (build (map (fun t => split (lower t)) texts))
        | _, _ => None
        end in
      let reranker :=
        match reranker_model_name, CrossEncoder w with
        | Some name, Some load => load name
        | _, _ => None
        end in
      Return (mkRetriever top_k alpha_hybrid vec_k bm25_k mmr_lambda mmr_pool
                          reranker_model_name rerank_from title_boost title_k
                          (snd titles) (SentenceTransformer w) index meta
                          texts (fst (fst (fst titles)))
                          (snd (fst (fst titles))) (snd (fst titles))
                          bm25 reranker)
  | _, _ => Raise FileNotFoundError
  end.

(** ** The fallback ranker ([rag.py] and [chat_stream.py])

    Used by [build_context_block] when the retriever cannot be built or
    returns nothing. *)

Definition _STOP : list string :=
  ["a"; "an"; "and"; "are"; "as"; "at"; "be"; "by"; "for"; "from"; "has";
   "have"; "in"; "is"; "it"; "its"; "of"; "on"; "or"; "that"; "the"; "this";
   "to"; "was"; "were"; "will"; "with"; "you"; "your"]%string.

Fixpoint prefix_of (p s : list ascii) : bool :=
  match p, s with
  | [], _ => true
  | a :: p', b :: s' => Ascii.eqb a b && prefix_of p' s'
  | _ :: _, [] => false
  end.

(** [s.count(sub)] for a non-empty [sub]: occurrences are counted from the
    left without overlap; [skip] is the number of characters of the last
    occurrence still to pass. *)
Fixpoint count_from (sub s : list ascii) (skip : nat) : nat :=
  match s with
  | [] => O
  | _ :: r =>
      match skip with
      | S k => count_from sub r k
      | O =>
          if prefix_of sub s
          then S (count_from sub r (List.length sub - 1))
          else count_from sub r O
      end
  end.

(** [s.count(sub)] *)
Definition str_count (s sub : string) : nat :=
  match sub with
  | EmptyString => S (String.length s)
  | String _ _ =>
      count_from (list_ascii_of_string sub) (list_ascii_of_string s) O
  end.

(** The query words that count: alphanumeric tokens of the lower-cased
    query that are not stop words. *)
Definition query_words (query : string) : list string :=
  filter (fun w => negb (existsb (String.eqb w) _STOP))
         (findall_alnum (lower query)).

Definition _score_chunk (query chunk : string) : nat :=
  match query_words query with
  | [] => O
  | _ :: _ =>
      let c := lower chunk in
      fold_left (fun score w => (score + str_count c w)%nat)
                (query_words query) O
  end.

(** An entry of [KB_INDEX]. *)
Record KBEntry : Type := mkEntry {
  kb_text : string;
  kb_source : string
}.

Definition entry_score (query : string) (e : KBEntry) : nat :=
  _score_chunk query (kb_text e).

(** [rag.py], lines 104-105: the entries that the fallback path of
    [build_context_block] formats. *)
Definition fallback_ranked (KB_INDEX : list KBEntry) (user_query : string)
           (top_k : Z) : list KBEntry :=
  let ranked :=
    sort_desc (fun ch => inject_Z (Z.of_nat (entry_score user_query ch)))
              KB_INDEX in
  slice_to (Z.max 1 top_k)
           (filter (fun r => (0 <? entry_score user_query r)%nat) ranked).

(** [chat_stream.py], lines 81-91. *)
Definition _rag_query_local (KB_INDEX : list KBEntry) (query : string)
           (top_k : Z) : list (string * nat) :=
  let scored :=
    map (fun entry => (kb_text entry, _score_chunk query (kb_text entry)))
        KB_INDEX in
  let scored := filter (fun s => (0 <? snd s)%nat) scored in
  let scored := sort_desc (fun t => inject_Z (Z.of_nat (snd t))) scored in
  slice_to (if (top_k =? 0)%Z then 4%Z else top_k) scored.

(** [rag.py], lines 106-116: the context block of the fallback path. *)



(** The loop of lines 110-116: blocks are appended until one would take
    the running length [used] over [max_chars]. *)
Fixpoint take_blocks (blocks : list string) (used max_chars : Z)
  : list string :=
  match blocks with
  | [] => []
  | block :: rest =>
      if (used + Z.of_nat (String.length block) >? max_chars)%Z then []
      else block :: take_blocks rest (used + Z.of_nat (String.length block))
                                max_chars
  end.


(** Total length of a list of strings. *)
Definition total_length (l : list string) : Z :=
  fold_right (fun s n => (Z.of_nat (String.length s) + n)%Z) 0%Z l.

(** [w] occurs in [c] as a substring. *)
Definition occurs_in (w c : string) : Prop :=
  exists pre post,
    list_ascii_of_string c = pre ++ list_ascii_of_string w ++ post.

(** ** Notions used by the statements *)



(** Every numeric environment variable is unset or converts. *)
Definition knobs_parse (w : World) : Prop :=
  RAG_ALPHA w <> Malformed /\ RAG_VEC_K w <> Malformed /\
  RAG_BM25_K w <> Malformed /\ RAG_MMR_LAMBDA w <> Malformed /\
  RAG_MMR_POOL w <> Malformed /\ RAG_RERANK_FROM w <> Malformed /\
  RAG_TITLE_BOOST w <> Malformed /\ RAG_TITLE_K w <> Malformed.

(** The MMR score of the specification: relevance minus the largest
    similarity to an already selected position, which is 0 while nothing
    is selected. *)
Definition spec_penalty (sim_dd : list (list Q)) (sel : list nat) (i : nat)
  : Q :=
  match sel with
  | [] => 0
  | _ :: _ => np_max (map (fun j => nth j (nth i sim_dd []) 0) sel)
  end.

Definition spec_mmr_score (lam : Q) (sim_q : list Q) (sim_dd : list (list Q))
           (sel : list nat) (i : nat) : Q :=
  lam * nth i sim_q 0 - (1 - lam) * spec_penalty sim_dd sel i.

(** The greedy selection of the specification over positions [0..n-1]:
    every pick is an unselected position whose score is the highest among
    the unselected ones. *)
Inductive greedy_trace (score : list nat -> nat -> Q) (n : nat)
  : list nat -> Prop :=
| greedy_start : greedy_trace score n []
| greedy_pick sel i :
    greedy_trace score n sel ->
    (i < n)%nat -> ~ In i sel ->
    (forall j, (j < n)%nat -> ~ In j sel -> score sel j <= score sel i) ->
    greedy_trace score n (sel ++ [i]).

(** Every score that the selector can compute is above the initial
    [best_score] of -1e9. *)
Definition above_sentinel (lam : Q) (sim_q : list Q) (sim_dd : list (list Q))
           (n : nat) : Prop :=
  forall sel mask i,
    (i < n)%nat -> sentinel < mmr_of lam sim_q sim_dd sel mask i.

(** An [n] by [n] table. *)
Definition square (n : nat) (t : list (list Q)) : Prop :=
  List.length t = n /\ Forall (fun row => List.length row = n) t.

(** The positions [picks] are in descending order of [f], and no position
    left out has a larger [f] than a picked one. *)
Definition descending_top (f : nat -> Q) (n : nat) (picks : list nat) : Prop :=
  (forall a b, (a < b < List.length picks)%nat ->
          f (nth b picks O) <= f (nth a picks O)) /\
  (forall p j, In p picks -> (j < n)%nat -> ~ In j picks -> f j <= f p).

(** A value between -1 and 1. *)
Definition in_unit (x : Q) : bool := Qle_bool (- (1)) x && Qle_bool x 1.

(** The inner products of [vecs] with each other and with [qv] are
    cosines: they lie between -1 and 1. *)
Definition cosine_ok (vecs : list (list Q)) (qv : list Q) : bool :=
  forallb (fun v => in_unit (dot v qv)
                    && forallb (fun w => in_unit (dot v w)) vecs) vecs.




(** The embeddings of a pool of chunk offsets (lines 215-218). *)
Definition pool_vecs (self : Retriever) (pool : list nat) : list (list Q) :=
  map (fun i => model self (nth i (_texts self) EmptyString)) pool.


(** The ranking of the candidates by fused score alone: the stable
    descending sort of line 193 with the fused score of lines 167-171 as
    the key. *)
Definition fused_ranking (alpha : Q) (cands : list nat) (v b : list Q)
  : list nat :=
  map fst (sort_desc snd (combine cands (fuse alpha v b))).

(** The stripped title of a metadata record, as lines 65 and 179 read
    it. *)
Definition title_of (m : Chunk.t) : string :=
  strip (or_else (Chunk.title m) EmptyString).


(** [build_titles.py], lines 19-34: the rows of [titles.npy] are the
    embeddings of the distinct stripped titles of [meta.json], in
    first-seen order.  [encode] stands for the model followed by the
    normalisation. *)
Definition build_titles (encode : string -> list Q) (meta : list Chunk.t)
  : list (list Q) :=
  map encode (fst (collect_titles meta)).

(** [RAG_USE_TITLES] does not switch the title boost off. *)
Definition titles_wanted (w : World) : Prop :=
  RAG_USE_TITLES w <> Some "0"%string /\
  RAG_USE_TITLES w <> Some "false"%string /\
  RAG_USE_TITLES w <> Some "False"%string.

(** ** A small corpus used to run the definitions

    Three chunks, two from document "a.txt" (title "Alpha") and one from
    "b.txt" (title "Beta"), with rational unit embeddings, an exact
    inner-product index and a scorer that counts matching tokens. *)

Module Fixture.

(** A flat inner-product index over [vecs]. *)
Definition flat_ip (vecs : list (list Q)) (q : list Q) (k : Z)
  : list Q * list Z :=
  let sims := map (fun v => dot v q) vecs in
  let order := firstn (Z.to_nat k) (argsort_desc sims) in
  (map (fun i => nth i sims 0) order, map Z.of_nat order).

(** Number of tokens of each document that occur in the query. *)
Definition count_scorer (corpus : list (list string)) (q : list string)
  : list Q :=
  map (fun d =>
         inject_Z (Z.of_nat (List.length
                    (filter (fun t => existsb (String.eqb t) q) d))))
      corpus.

Definition embed (s : string) : list Q :=
  if String.eqb s "alpha one" then [1; 0]
  else if String.eqb s "alpha two" then [4 # 5; 3 # 5]
  else if String.eqb s "beta gamma" then [0; 1]
  else [3 # 5; 4 # 5].

Definition chunks : list Chunk.t :=
  [ Chunk.mk "a.txt" (Some "Alpha"%string) 0 (Some "alpha one"%string) "h0";
    Chunk.mk "a.txt" (Some "Alpha"%string) 1 (Some "alpha two"%string) "h1";
    Chunk.mk "b.txt" (Some "Beta"%string) 0 (Some "beta gamma"%string) "h2" ].

Definition chunk_index : list Q -> Z -> list Q * list Z :=
  flat_ip (map (fun m => embed (or_else (Chunk.text m) EmptyString)) chunks).

(** No environment variable set, both required files present, no
    [titles.npy], BM25 importable, no cross-encoder. *)
Definition world : World :=
  mkWorld Unset Unset Unset Unset Unset None Unset Unset Unset None
          (Some chunk_index) (Some chunks) None embed
          (Some count_scorer) None.

Definition with_files (idx : option (list Q -> Z -> list Q * list Z))
           (m : option (list Chunk.t)) (w : World) : World :=
  mkWorld (RAG_ALPHA w) (RAG_VEC_K w) (RAG_BM25_K w) (RAG_MMR_LAMBDA w)
          (RAG_MMR_POOL w) (RAG_RERANKER w) (RAG_RERANK_FROM w)
          (RAG_TITLE_BOOST w) (RAG_TITLE_K w) (RAG_USE_TITLES w)
          idx m (TITLES_NPY w) (SentenceTransformer w) (BM25Okapi w)
          (CrossEncoder w).

Definition with_titles (t : option (option (list (list Q)))) (w : World)
  : World :=
  mkWorld (RAG_ALPHA w) (RAG_VEC_K w) (RAG_BM25_K w) (RAG_MMR_LAMBDA w)
          (RAG_MMR_POOL w) (RAG_RERANKER w) (RAG_RERANK_FROM w)
          (RAG_TITLE_BOOST w) (RAG_TITLE_K w) (RAG_USE_TITLES w)
          (INDEX_PATH w) (META_PATH w) t (SentenceTransformer w)
          (BM25Okapi w) (CrossEncoder w).



(** A retriever that serves nothing, for the unreachable branch below. *)
Definition blank : Retriever :=
  mkRetriever 4 0 0 0 0 0 None 0 0 0 false embed (fun _ _ => ([], []))
              [] [] [] [] None None None.

(** [Retriever(top_k)] in world [w]. *)
Definition construct (w : World) (top_k : Z) : Retriever :=
  match __init__ w top_k with
  | Return self => self
  | Raise _ => blank
  end.

Definition retriever : Retriever := construct world 4.

(** A corpus whose index and scorer return nothing. *)
Definition silent_world : World :=
  mkWorld Unset Unset Unset Unset Unset None Unset Unset Unset None
          (Some (fun _ _ => ([], []))) (Some chunks) None embed None None.


End Fixture.

(** * Properties *)

Unset Implicit Arguments.

(** ** Comparisons *)

Lemma Qlt_bool_iff x y : Qlt_bool x y = true <-> x < y.
Proof.
  unfold Qlt_bool. rewrite negb_true_iff.
  split; intro H.
  - apply Qnot_le_lt. intro L. apply Qle_bool_iff in L. congruence.
  - destruct (Qle_bool y x) eqn:E; [|reflexivity].
    apply Qle_bool_iff in E. exfalso. apply (Qlt_not_le _ _ H E).
Qed.

Lemma Qlt_bool_false x y : Qlt_bool x y = false <-> y <= x.
Proof.
  unfold Qlt_bool. rewrite negb_false_iff. apply Qle_bool_iff.
Qed.

(** ** The monad and the list primitives *)


Lemma mapM_Return {A B} (f : A -> result B) (l : list A) ys :
  mapM f l = Return ys ->
  List.length ys = List.length l /\
  forall i x, nth_error l i = Some x ->
         exists y, nth_error ys i = Some y /\ f x = Return y.
Proof.
  revert ys. induction l as [|x r IH]; intros ys H; simpl in H.
  - inversion H; subst. split; [reflexivity|].
    intros [|i] z Hz; discriminate.
  - destruct (f x) as [e|y] eqn:Hy; simpl in H; [discriminate|].
    destruct (mapM f r) as [e|ys'] eqn:Hr; simpl in H; [discriminate|].
    inversion H; subst. destruct (IH ys' eq_refl) as [Hlen Hnth].
    split; [simpl; now rewrite Hlen|].
    intros [|i] z Hz; simpl in *.
    + inversion Hz; subst. exists y. split; [reflexivity|assumption].
    + apply Hnth. exact Hz.
Qed.

Lemma mapM_ext_in {A B} (f g : A -> result B) (l : list A) :
  (forall x, In x l -> f x = g x) -> mapM f l = mapM g l.
Proof.
  induction l as [|x r IH]; intros H; simpl; [reflexivity|].
  rewrite (H x (or_introl eq_refl)), IH; [reflexivity|].
  intros z Hz. apply H. now right.
Qed.


Lemma getitem_Return {A} (l : list A) i x :
  getitem l i = Return x -> nth_error l i = Some x.
Proof.
  unfold getitem. destruct (nth_error l i); intros H; now inversion H.
Qed.

Lemma slice_to_length {A} (n : Z) (l : list A) :
  (0 <= n)%Z ->
  List.length (slice_to n l) = Nat.min (Z.to_nat n) (List.length l).
Proof.
  intros H. unfold slice_to.
  destruct (0 <=? n)%Z eqn:E; [|apply Z.leb_gt in E; lia].
  apply length_firstn.
Qed.

Lemma slice_to_all {A} (l : list A) :
  slice_to (Z.of_nat (List.length l)) l = l.
Proof.
  unfold slice_to.
  destruct (0 <=? Z.of_nat (List.length l))%Z eqn:E;
    [|apply Z.leb_gt in E; lia].
  rewrite Nat2Z.id. apply firstn_all.
Qed.

Lemma firstn_incl {A} (n : nat) (l : list A) x :
  In x (firstn n l) -> In x l.
Proof.
  intros H. rewrite <- (firstn_skipn n l). apply in_or_app. now left.
Qed.

Lemma slice_to_incl {A} (n : Z) (l : list A) x :
  In x (slice_to n l) -> In x l.
Proof.
  unfold slice_to. destruct (0 <=? n)%Z; apply firstn_incl.
Qed.


(** ** Stable sort *)

Section SortFacts.
Variable A : Type.
Variable key : A -> Q.



Lemma insert_desc_In x (l : list A) z :
  In z (insert_desc key x l) <-> z = x \/ In z l.
Proof.
  induction l as [|y r IH]; simpl.
  - intuition auto.
  - destruct (Qlt_bool (key x) (key y)); simpl.
    + rewrite IH. intuition auto.
    + intuition auto.
Qed.

Lemma sort_desc_In (l : list A) z :
  In z (sort_desc key l) <-> In z l.
Proof.
  induction l as [|x r IH]; simpl; [reflexivity|].
  rewrite insert_desc_In, IH. intuition auto.
Qed.

(** The result depends only on the strict comparisons between the keys
    of the elements. *)
Variable key' : A -> Q.

Lemma insert_desc_ext x (l : list A) :
  (forall y, In y l ->
        Qlt_bool (key x) (key y) = Qlt_bool (key' x) (key' y)) ->
  insert_desc key x l = insert_desc key' x l.
Proof.
  induction l as [|y r IH]; intros H; simpl; [reflexivity|].
  rewrite <- (H y (or_introl eq_refl)).
  destruct (Qlt_bool (key x) (key y)); [|reflexivity].
  rewrite IH; [reflexivity|]. intros z Hz. apply H. now right.
Qed.

Lemma sort_desc_ext (l : list A) :
  (forall x y, In x l -> In y l ->
          Qlt_bool (key x) (key y) = Qlt_bool (key' x) (key' y)) ->
  sort_desc key l = sort_desc key' l.
Proof.
  induction l as [|x r IH]; intros H; simpl; [reflexivity|].
  rewrite <- IH.
  - apply insert_desc_ext. intros y Hy. apply (proj1 (sort_desc_In r y)) in Hy.
    apply H; [now left|now right].
  - intros a b Ha Hb. apply H; now right.
Qed.
End SortFacts.



(** ** Minimum and maximum of an array *)

Lemma np_max_fold r : forall m,
  let M := fold_left (fun m y => if Qlt_bool m y then y else m) r m in
  In M (m :: r) /\ m <= M /\ forall x, In x r -> x <= M.
Proof.
  induction r as [|y r IH]; intros m; simpl.
  - split; [now left|]. split; [apply Qle_refl|]. intros x [].
  - destruct (IH (if Qlt_bool m y then y else m)) as [HIn [Hle Hall]].
    destruct (Qlt_bool m y) eqn:E.
    + apply Qlt_bool_iff in E. split; [|split].
      * destruct HIn as [H|H]; [right; left; exact H|right; right; exact H].
      * eapply Qle_trans; [apply Qlt_le_weak; exact E|exact Hle].
      * intros x [Hx|Hx]; [subst; exact Hle|now apply Hall].
    + apply Qlt_bool_false in E. split; [|split].
      * destruct HIn as [H|H]; [left; exact H|right; right; exact H].
      * exact Hle.
      * intros x [Hx|Hx]; [subst; eapply Qle_trans; eauto|now apply Hall].
Qed.

Lemma np_min_fold r : forall m,
  let M := fold_left (fun m y => if Qlt_bool y m then y else m) r m in
  In M (m :: r) /\ M <= m /\ forall x, In x r -> M <= x.
Proof.
  induction r as [|y r IH]; intros m; simpl.
  - split; [now left|]. split; [apply Qle_refl|]. intros x [].
  - destruct (IH (if Qlt_bool y m then y else m)) as [HIn [Hle Hall]].
    destruct (Qlt_bool y m) eqn:E.
    + apply Qlt_bool_iff in E. split; [|split].
      * destruct HIn as [H|H]; [right; left; exact H|right; right; exact H].
      * eapply Qle_trans; [exact Hle|apply Qlt_le_weak; exact E].
      * intros x [Hx|Hx]; [subst; exact Hle|now apply Hall].
    + apply Qlt_bool_false in E. split; [|split].
      * destruct HIn as [H|H]; [left; exact H|right; right; exact H].
      * exact Hle.
      * intros x [Hx|Hx]; [subst; eapply Qle_trans; eauto|now apply Hall].
Qed.

Lemma np_max_In l : l <> [] -> In (np_max l) l.
Proof.
  destruct l as [|x r]; [congruence|]. intros _.
  apply (np_max_fold r x).
Qed.

Lemma np_max_ge l x : In x l -> x <= np_max l.
Proof.
  destruct l as [|y r]; [intros []|].
  destruct (np_max_fold r y) as [_ [H1 H2]].
  intros [H|H]; [subst; exact H1|now apply H2].
Qed.

Lemma np_min_In l : l <> [] -> In (np_min l) l.
Proof.
  destruct l as [|x r]; [congruence|]. intros _.
  apply (np_min_fold r x).
Qed.


(** ** Min-max normalisation *)

Lemma eps_pos : 0 < eps.
Proof. reflexivity. Qed.

Lemma _minmax_length arr : List.length (_minmax arr) = List.length arr.
Proof.
  unfold _minmax. destruct arr as [|x r]; [reflexivity|].
  destruct (Qlt_bool _ _); now rewrite length_map.
Qed.


(** ** Rows of the ranked list *)

Lemma nth_error_combine {A B} (l1 : list A) (l2 : list B) j a b :
  nth_error (combine l1 l2) j = Some (a, b) <->
  nth_error l1 j = Some a /\ nth_error l2 j = Some b.
Proof.
  revert l2 j. induction l1 as [|x r IH]; intros l2 j.
  - destruct j; simpl; split; intros H; try discriminate;
      destruct H; discriminate.
  - destruct l2 as [|y r2].
    + destruct j; simpl; split; intros H; try discriminate;
        destruct H; discriminate.
    + destruct j; simpl.
      * split; [intros H; inversion H; auto|intros [H1 H2]; congruence].
      * apply IH.
Qed.


Lemma map2_length {A B C} (f : A -> B -> C) l1 l2 :
  List.length l1 = List.length l2 ->
  List.length (map2 f l1 l2) = List.length l1.
Proof.
  intros H. unfold map2. rewrite length_map, length_combine. lia.
Qed.

Lemma zip_rows_nth c v b f t tot j r :
  nth_error (zip_rows c v b f t tot) j = Some r ->
  nth_error c j = Some (chunk_idx r) /\
  nth_error v j = Some (vec_norm r) /\
  nth_error b j = Some (bm25_norm r) /\
  nth_error f j = Some (fused_hybrid r) /\
  nth_error t j = Some (title_sim_norm r) /\
  nth_error tot j = Some (total_score r).
Proof.
  unfold zip_rows. rewrite nth_error_map.
  destruct (nth_error _ j) as [[[[[[ci vi] bi] fi] ti] toti]|] eqn:E;
    simpl; intros H; inversion H; subst; simpl.
  apply nth_error_combine in E. destruct E as [E ?].
  apply nth_error_combine in E. destruct E as [E ?].
  apply nth_error_combine in E. destruct E as [E ?].
  apply nth_error_combine in E. destruct E as [E ?].
  apply nth_error_combine in E. destruct E as [? ?].
  auto 10.
Qed.

Lemma zip_rows_length c v b f t tot :
  List.length v = List.length c -> List.length b = List.length c ->
  List.length f = List.length c -> List.length t = List.length c ->
  List.length tot = List.length c ->
  List.length (zip_rows c v b f t tot) = List.length c.
Proof.
  intros. unfold zip_rows.
  rewrite length_map. repeat rewrite length_combine. lia.
Qed.

Lemma zip_rows_idx c v b f t tot :
  List.length v = List.length c -> List.length b = List.length c ->
  List.length f = List.length c -> List.length t = List.length c ->
  List.length tot = List.length c ->
  map chunk_idx (zip_rows c v b f t tot) = c.
Proof.
  intros Hv Hb Hf Ht Htot.
  apply nth_error_ext. intros j. rewrite nth_error_map.
  destruct (nth_error (zip_rows c v b f t tot) j) as [r|] eqn:E; simpl.
  - apply zip_rows_nth in E. symmetry. apply E.
  - apply nth_error_None in E.
    rewrite zip_rows_length in E by assumption.
    symmetry. now apply nth_error_None.
Qed.

Lemma fuse_length alpha v b :
  List.length v = List.length b ->
  List.length (fuse alpha v b) = List.length v.
Proof.
  intros H. unfold fuse. rewrite map2_length; rewrite ?_minmax_length; auto.
Qed.

Lemma cand_arr_lengths self query :
  List.length (v_arr self query) = List.length (cand_list self query) /\
  List.length (b_arr self query) = List.length (cand_list self query).
Proof. unfold v_arr, b_arr. now rewrite !length_map. Qed.


(** ** Dictionaries *)

Section DictFacts.
Variables K V : Type.
Variable eqb : K -> K -> bool.



End DictFacts.

(** ** Retrieval without title boost *)

Lemma title_boosts_off self query :
  use_titles self = false ->
  title_boosts self query = Return (map (fun _ => 0) (cand_list self query)).
Proof. intros H. unfold title_boosts. now rewrite H. Qed.




(** ** Degenerate lexical axis *)





(** ** Construction *)

Lemma read_knob_cases {A} (k : knob A) (d : A) :
  (k = Malformed /\ read_knob k d = Raise ValueError) \/
  (k <> Malformed /\ exists v, read_knob k d = Return v).
Proof.
  destruct k; simpl.
  - right. split; [discriminate|eauto].
  - left. auto.
  - right. split; [discriminate|eauto].
Qed.






(** ** Empty corpus and empty candidate sets *)

(** C8. [search] returns the empty list, without raising, on a corpus of
    zero chunks, and also whenever the dense candidate set (the keys of
    [vec_map]) and the sparse candidate set ([bm25_ids]) are both empty. *)
Theorem search_empty self query top :
  meta self = [] \/
  (dict_keys (vec_map self query) = [] /\
   fst (bm25_search self query) = []) ->
  search self query top = Return [].
Proof.
  intros H. unfold search, _hybrid_rank.
  destruct (meta self) as [|m ms]; [reflexivity|].
  destruct H as [H|[H1 H2]]; [discriminate|].
  unfold cand_list. rewrite H1, H2. reflexivity.
Qed.

Lemma search_empty_witness :
  search (Fixture.construct
            (Fixture.with_files (Some Fixture.chunk_index) (Some [])
                                Fixture.world) 4)
         "anything" (Some 3%Z) = Return [] /\
  search (Fixture.construct Fixture.silent_world 4) "anything" None
    = Return [].
Proof.
  split.
  - apply search_empty. left. reflexivity.
  - apply search_empty. right. split; reflexivity.
Defined.

Lemma read_knob_ok {A} (k : knob A) (d : A) :
  k <> Malformed -> exists v, read_knob k d = Return v.
Proof.
  intros H. destruct (read_knob_cases k d) as [[M _]|[_ E]];
    [contradiction|exact E].
Qed.

Ltac read_ok k d H :=
  let E := fresh "E" in
  let v := fresh "v" in
  destruct (read_knob_ok k d H) as [v E]; rewrite E; simpl bind.



(** ** Tokenisation of the sparse path *)


Lemma runs_tokens keep s : forall cur,
  Forall (fun c => keep c = true) cur ->
  Forall (fun t => t <> [] /\ Forall (fun c => keep c = true) t)
         (runs keep cur s).
Proof.
  assert (R : forall cur, cur <> [] ->
                     Forall (fun c => keep c = true) cur ->
                     rev cur <> [] /\ Forall (fun c => keep c = true) (rev cur)).
  { intros cur N F. split.
    - intros E. apply N. apply (f_equal (@rev ascii)) in E.
      now rewrite rev_involutive in E.
    - apply Forall_rev. exact F. }
  induction s as [|c r IH]; intros cur F; simpl.
  - destruct cur as [|a cur']; [constructor|].
    constructor; [|constructor]. apply R; [discriminate|exact F].
  - destruct (keep c) eqn:E.
    + apply IH. constructor; assumption.
    + destruct cur as [|a cur'].
      * apply IH. constructor.
      * constructor; [apply R; [discriminate|exact F]|].
        apply IH. constructor.
Qed.





(** ** One pass of the MMR selector *)

Section Pass.
Variables (lam : Q) (sim_q : list Q) (sim_dd : list (list Q)).
Variables (selected : list nat) (mask : list bool).

Let score (i : nat) : Q := mmr_of lam sim_q sim_dd selected mask i.
Let free (i : nat) : Prop := nth i mask false = false.

Definition pass_inv (seen : list nat) (best : option nat * Q) : Prop :=
  sentinel <= snd best /\
  (forall i, In i seen -> free i -> score i <= snd best) /\
  match fst best with
  | None => snd best = sentinel
  | Some j => In j seen /\ free j /\ snd best = score j /\
             sentinel < snd best
  end.

Lemma pass_fold l : forall seen best,
  pass_inv seen best ->
  pass_inv (seen ++ l)
    (fold_left
       (fun best i =>
          if nth i mask false then best
          else
            let mmr := mmr_of lam sim_q sim_dd selected mask i in
            if Qlt_bool (snd best) mmr then (Some i, mmr) else best)
       l best).
Proof.
  induction l as [|i l IH]; intros seen best Inv; simpl.
  - now rewrite app_nil_r.
  - replace (seen ++ i :: l) with ((seen ++ [i]) ++ l)
      by (now rewrite <- app_assoc).
    apply IH. destruct Inv as [S0 [Hall Hb]].
    destruct (nth i mask false) eqn:Em.
    + split; [exact S0|]. split.
      * intros j Hj Fj. apply in_app_or in Hj.
        destruct Hj as [Hj|[<-|[]]]; [now apply Hall|].
        unfold free in Fj. congruence.
      * destruct (fst best) as [j|]; [|exact Hb].
        destruct Hb as [H1 H2]. split; [|exact H2].
        apply in_or_app. now left.
    + fold (score i).
      destruct (Qlt_bool (snd best) (score i)) eqn:Ec.
      * apply Qlt_bool_iff in Ec. simpl. split; [|split].
        -- apply Qlt_le_weak. eapply Qle_lt_trans; eauto.
        -- intros j Hj Fj. apply in_app_or in Hj.
           destruct Hj as [Hj|[<-|[]]]; [|apply Qle_refl].
           eapply Qle_trans; [now apply Hall|now apply Qlt_le_weak].
        -- split; [apply in_or_app; right; now left|].
           split; [exact Em|]. split; [reflexivity|].
           eapply Qle_lt_trans; eauto.
      * apply Qlt_bool_false in Ec. split; [exact S0|]. split.
        -- intros j Hj Fj. apply in_app_or in Hj.
           destruct Hj as [Hj|[<-|[]]]; [now apply Hall|exact Ec].
        -- destruct (fst best) as [j|]; [|exact Hb].
           destruct Hb as [H1 H2]. split; [|exact H2].
           apply in_or_app. now left.
Qed.

Lemma mmr_pass_inv n :
  pass_inv (seq 0 n) (mmr_pass lam sim_q sim_dd selected mask n).
Proof.
  unfold mmr_pass. apply (pass_fold (seq 0 n) [] (None, sentinel)).
  split; [apply Qle_refl|]. split; [intros i []|reflexivity].
Qed.

Lemma mmr_pass_Some n j :
  fst (mmr_pass lam sim_q sim_dd selected mask n) = Some j ->
  (j < n)%nat /\ nth j mask false = false /\ sentinel < score j /\
  forall i, (i < n)%nat -> nth i mask false = false -> score i <= score j.
Proof.
  intros E. destruct (mmr_pass_inv n) as [_ [Hall Hb]].
  rewrite E in Hb. destruct Hb as [Hin [Hf [Hs Hgt]]].
  apply in_seq in Hin. split; [lia|]. split; [exact Hf|].
  split; [now rewrite <- Hs|].
  intros i Hi Fi. rewrite <- Hs. apply Hall; [apply in_seq; lia|exact Fi].
Qed.

Lemma mmr_pass_None n :
  fst (mmr_pass lam sim_q sim_dd selected mask n) = None ->
  forall i, (i < n)%nat -> nth i mask false = false -> score i <= sentinel.
Proof.
  intros E i Hi Fi. destruct (mmr_pass_inv n) as [_ [Hall Hb]].
  rewrite E in Hb. rewrite <- Hb. apply Hall; [apply in_seq; lia|exact Fi].
Qed.
End Pass.

(** ** The selection mask *)

Lemma set_true_length i mask :
  List.length (set_true i mask) = List.length mask.
Proof.
  revert i. induction mask as [|b r IH]; intros [|i]; simpl; auto.
Qed.

Lemma set_true_nth i mask j :
  (i < List.length mask)%nat ->
  (nth j (set_true i mask) false = true <->
   j = i \/ nth j mask false = true).
Proof.
  revert i j. induction mask as [|b r IH]; intros i j Hi; simpl in Hi;
    [lia|].
  destruct i as [|i], j as [|j]; simpl.
  - intuition auto.
  - intuition auto; discriminate.
  - intuition auto; discriminate.
  - rewrite IH by lia. intuition auto.
Qed.

Lemma nth_repeat_false n i : nth i (repeat false n) false = false.
Proof.
  revert i. induction n as [|n IH]; intros [|i]; simpl; auto.
Qed.

(** ** Maxima over the same values *)

Lemma np_max_ext l1 l2 :
  l1 <> [] -> l2 <> [] -> (forall x, In x l1 <-> In x l2) ->
  np_max l1 == np_max l2.
Proof.
  intros N1 N2 H. apply Qle_antisym; apply np_max_ge.
  - apply H. now apply np_max_In.
  - apply H. now apply np_max_In.
Qed.

Lemma masked_In mask row x :
  In x (masked mask row) <->
  exists j, nth_error mask j = Some true /\ nth_error row j = Some x.
Proof.
  unfold masked. rewrite in_map_iff. split.
  - intros [[b y] [E H]]. simpl in E. subst y.
    apply filter_In in H. destruct H as [H Hb]. simpl in Hb. subst b.
    apply In_nth_error in H. destruct H as [j Hj].
    exists j. now apply nth_error_combine.
  - intros [j Hj]. apply nth_error_combine in Hj.
    exists (true, x). split; [reflexivity|].
    apply filter_In. split; [|reflexivity].
    eapply nth_error_In; eauto.
Qed.

(** ** The greedy loop *)

Section Loop.
Variables (lam : Q) (ids : list nat) (sim_q : list Q)
          (sim_dd : list (list Q)).
Let n := List.length ids.
Hypothesis Hsq : square n sim_dd.

Definition loop_inv (picks selected : list nat) (mask : list bool) : Prop :=
  List.length mask = n /\
  (forall i, nth i mask false = true <-> In i picks) /\
  selected = map (fun p => nth p ids O) picks /\
  NoDup picks /\
  (forall p, In p picks -> (p < n)%nat).

Lemma row_length i : (i < n)%nat -> List.length (nth i sim_dd []) = n.
Proof.
  intros Hi. destruct Hsq as [L F]. rewrite Forall_forall in F.
  apply F. apply nth_In. lia.
Qed.

(** Under the invariant the score of the code is the score of the
    specification. *)
Lemma mmr_of_spec picks selected mask i :
  loop_inv picks selected mask -> (i < n)%nat ->
  mmr_of lam sim_q sim_dd selected mask i
  == spec_mmr_score lam sim_q sim_dd picks i.
Proof.
  intros [Lm [Hm [Hs [Nd Hr]]]] Hi.
  unfold mmr_of, spec_mmr_score, spec_penalty.
  destruct picks as [|p ps]; subst selected; simpl map; cbv beta iota;
    [reflexivity|].
  set (row := nth i sim_dd []).
  assert (Lr : List.length row = n) by (now apply row_length).
  assert (E : np_max (masked mask row)
              == np_max (map (fun j => nth j row 0) (p :: ps))).
  { assert (X : forall x, In x (masked mask row) <->
                     In x (map (fun j => nth j row 0) (p :: ps))).
    { intros x. rewrite masked_In, in_map_iff. split.
      - intros [j [Hj Hx]]. exists j. split.
        + now apply nth_error_nth.
        + apply Hm. now apply nth_error_nth.
      - intros [j [Hx Hj]]. exists j.
        pose proof (Hr j Hj) as Hjn. split.
        + rewrite (nth_error_nth' mask false) by lia.
          f_equal. now apply Hm.
        + rewrite (nth_error_nth' row 0) by lia. now f_equal. }
    apply np_max_ext; [| discriminate | exact X].
    intros E0. assert (H0 : In (nth p row 0) (masked mask row)).
    { apply X. apply in_map_iff. exists p. split; [reflexivity|now left]. }
    rewrite E0 in H0. destruct H0. }
  rewrite E. reflexivity.
Qed.

Lemma picks_bound picks :
  NoDup picks -> (forall p, In p picks -> (p < n)%nat) ->
  (List.length picks <= n)%nat.
Proof.
  intros Nd Hr. rewrite <- (length_seq n 0).
  apply NoDup_incl_length; [exact Nd|].
  intros p Hp. apply in_seq. specialize (Hr p Hp). lia.
Qed.

Lemma mmr_loop_greedy steps : forall picks selected mask,
  loop_inv picks selected mask ->
  greedy_trace (spec_mmr_score lam sim_q sim_dd) n picks ->
  (List.length picks + steps <= n)%nat ->
  exists picks',
    mmr_loop lam ids sim_q sim_dd steps selected mask
      = map (fun p => nth p ids O) picks' /\
    greedy_trace (spec_mmr_score lam sim_q sim_dd) n picks' /\
    NoDup picks' /\
    (forall p, In p picks' -> (p < n)%nat) /\
    (List.length picks' <= List.length picks + steps)%nat /\
    (above_sentinel lam sim_q sim_dd n ->
     List.length picks' = (List.length picks + steps)%nat).
Proof.
  induction steps as [|steps IH]; intros picks selected mask Inv G Hle.
  - exists picks. destruct Inv as [Lm [Hm [Hs [Nd Hr]]]].
    simpl. repeat split; auto; lia.
  - simpl. fold n.
    destruct (fst (mmr_pass lam sim_q sim_dd selected mask n))
      as [best_i|] eqn:Ep.
    + apply mmr_pass_Some in Ep.
      destruct Ep as [Hb [Hf [_ Hmax]]].
      pose proof Inv as [Lm [Hm [Hs [Nd Hr]]]].
      assert (Hnot : ~ In best_i picks).
      { intros Hin. apply Hm in Hin. congruence. }
      assert (Inv' : loop_inv (picks ++ [best_i])
                              (selected ++ [nth best_i ids O])
                              (set_true best_i mask)).
      { split; [now rewrite set_true_length|]. split; [|split; [|split]].
        - intros i. rewrite set_true_nth by lia. rewrite Hm, in_app_iff.
          simpl. intuition auto.
        - rewrite map_app. simpl. now rewrite Hs.
        - apply NoDup_app; [exact Nd|repeat constructor; intros []|].
          intros x Hx [<-|[]]. contradiction.
        - intros p Hp. apply in_app_or in Hp.
          destruct Hp as [Hp|[<-|[]]]; auto. }
      assert (G' : greedy_trace (spec_mmr_score lam sim_q sim_dd) n
                                (picks ++ [best_i])).
      { apply greedy_pick; auto.
        intros j Hj Hnj.
        rewrite <- (mmr_of_spec picks selected mask j Inv Hj).
        rewrite <- (mmr_of_spec picks selected mask best_i Inv Hb).
        apply Hmax; [exact Hj|].
        destruct (nth j mask false) eqn:Ej; [|reflexivity].
        exfalso. apply Hnj. now apply Hm. }
      destruct (IH _ _ _ Inv' G') as [picks' [E [G2 [Nd2 [Hr2 [L2 A2]]]]]].
      { rewrite length_app. simpl. lia. }
      exists picks'. rewrite length_app in L2, A2. simpl in L2, A2.
      repeat split; auto; try lia.
      intros A. rewrite (A2 A). lia.
    + exists picks. destruct Inv as [Lm [Hm [Hs [Nd Hr]]]].
      repeat split; auto; try lia.
      intros A. exfalso.
      assert (Hall : incl (seq 0 n) picks).
      { intros i Hi. apply in_seq in Hi.
        destruct (in_dec Nat.eq_dec i picks) as [Hin|Hnin]; [exact Hin|].
        exfalso.
        assert (Fi : nth i mask false = false).
        { destruct (nth i mask false) eqn:Ei; [|reflexivity].
          exfalso. apply Hnin. now apply Hm. }
        pose proof (mmr_pass_None lam sim_q sim_dd selected mask n Ep i
                                  ltac:(lia) Fi) as Hle'.
        pose proof (A selected mask i ltac:(lia)) as Hgt.
        apply (Qlt_not_le _ _ Hgt Hle'). }
      apply NoDup_incl_length in Hall; [|apply seq_NoDup].
      rewrite length_seq in Hall. lia.
Qed.
End Loop.

(** ** Selection with [lambda_mult = 1] *)

Lemma greedy_descending (score : list nat -> nat -> Q) (f : nat -> Q) n picks :
  (forall sel i, score sel i == f i) ->
  greedy_trace score n picks ->
  descending_top f n picks.
Proof.
  intros Hs G. induction G as [|sel i G [IH1 IH2] Hi Hn Hmax].
  - split; [simpl; intros; lia|intros p j []].
  - assert (Hnew : forall p, In p sel -> f i <= f p)
      by (intros p Hp; now apply IH2).
    split.
    + intros a b [Hab Hb]. rewrite length_app in Hb. simpl in Hb.
      destruct (Nat.eq_dec b (List.length sel)) as [->|Hne].
      * rewrite nth_middle. rewrite app_nth1 by lia.
        apply Hnew. apply nth_In. lia.
      * rewrite !app_nth1 by lia. apply IH1. lia.
    + intros p j Hp Hj Hnj. apply in_app_or in Hp.
      assert (Hnj' : ~ In j sel)
        by (intros X; apply Hnj; apply in_or_app; now left).
      destruct Hp as [Hp|[<-|[]]].
      * now apply IH2.
      * rewrite <- (Hs sel j), <- (Hs sel i). now apply Hmax.
Qed.

(** ** The selector on a pool *)

Lemma mapM_getitem {A} (l : list A) (d : A) ids :
  Forall (fun i => (i < List.length l)%nat) ids ->
  mapM (getitem l) ids = Return (map (fun i => nth i l d) ids).
Proof.
  induction ids as [|i r IH]; intros F; simpl; [reflexivity|].
  inversion F; subst. rewrite (IH H2). unfold getitem.
  rewrite (nth_error_nth' l d H1). reflexivity.
Qed.


Lemma sim_dd_square vecs : square (List.length vecs) (sim_dd_of vecs).
Proof.
  unfold square, sim_dd_of. rewrite length_map. split; [reflexivity|].
  apply Forall_forall. intros row H. apply in_map_iff in H.
  destruct H as [v [<- _]]. now rewrite length_map.
Qed.

Lemma pool_vecs_length self pool :
  List.length (pool_vecs self pool) = List.length pool.
Proof. unfold pool_vecs. now rewrite length_map. Qed.

Lemma _mmr_greedy self qv ids k lam :
  Forall (fun i => (i < List.length (_texts self))%nat) ids ->
  exists picks,
    _mmr self qv ids k lam = Return (map (fun p => nth p ids O) picks) /\
    greedy_trace
      (spec_mmr_score lam (sim_q_of (pool_vecs self ids) qv)
                      (sim_dd_of (pool_vecs self ids)))
      (List.length ids) picks /\
    NoDup picks /\
    (forall p, In p picks -> (p < List.length ids)%nat) /\
    (List.length picks
     <= Z.to_nat (Z.max 1 (Z.min k (Z.of_nat (List.length ids)))))%nat /\
    (ids <> [] ->
     above_sentinel lam (sim_q_of (pool_vecs self ids) qv)
                    (sim_dd_of (pool_vecs self ids)) (List.length ids) ->
     List.length picks
     = Z.to_nat (Z.max 1 (Z.min k (Z.of_nat (List.length ids))))).
Proof.
  intros F. unfold _mmr. destruct ids as [|i0 r] eqn:Eids.
  { exists []. split; [reflexivity|]. split; [constructor|].
    split; [constructor|]. split; [intros p []|].
    split; [simpl; lia|]. intros N. now contradiction N. }
  rewrite <- Eids in *.
  rewrite (mapM_getitem (_texts self) EmptyString ids F). simpl bind.
  rewrite map_map. fold (pool_vecs self ids).
  set (steps := Z.to_nat (Z.max 1 (Z.min k (Z.of_nat (List.length ids))))).
  assert (Hn : (1 <= List.length ids)%nat) by (rewrite Eids; simpl; lia).
  assert (Hsteps : (steps <= List.length ids)%nat) by (unfold steps; lia).
  pose proof (sim_dd_square (pool_vecs self ids)) as Sq.
  rewrite pool_vecs_length in Sq.
  destruct (mmr_loop_greedy lam ids (sim_q_of (pool_vecs self ids) qv)
              (sim_dd_of (pool_vecs self ids)) Sq steps []
              [] (repeat false (List.length ids)))
    as [picks [E [G [Nd [Hr [Hl Ha]]]]]].
  - split; [apply repeat_length|]. split; [|split; [reflexivity|split]].
    + intros i. rewrite nth_repeat_false. split; [discriminate|intros []].
    + constructor.
    + intros p [].
  - constructor.
  - simpl. exact Hsteps.
  - exists picks. split; [now rewrite E|]. split; [exact G|].
    split; [exact Nd|]. split; [exact Hr|]. split; [exact Hl|].
    intros _ A. exact (Ha A).
Qed.

(** ** Cosines keep the scores above the sentinel *)

Lemma in_unit_iff x : in_unit x = true <-> - (1) <= x /\ x <= 1.
Proof.
  unfold in_unit. rewrite andb_true_iff, !Qle_bool_iff. reflexivity.
Qed.

Lemma cosine_above_sentinel lam vecs qv :
  0 <= lam -> lam <= 1 -> cosine_ok vecs qv = true ->
  above_sentinel lam (sim_q_of vecs qv) (sim_dd_of vecs) (List.length vecs).
Proof.
  intros L0 L1 C sel mask i Hi.
  unfold cosine_ok in C. rewrite forallb_forall in C.
  set (v := nth i vecs []).
  assert (Hv : In v vecs) by (apply nth_In; exact Hi).
  pose proof (C v Hv) as Cv. apply andb_true_iff in Cv.
  destruct Cv as [Cq Cd]. rewrite forallb_forall in Cd.
  apply in_unit_iff in Cq.
  assert (Eq : nth i (sim_q_of vecs qv) 0 = dot v qv).
  { unfold sim_q_of.
    rewrite (nth_indep _ 0 (dot [] qv)) by (now rewrite length_map).
    apply (map_nth (fun v => dot v qv)). }
  assert (Er : nth i (sim_dd_of vecs) [] = map (fun w => dot v w) vecs).
  { unfold sim_dd_of.
    rewrite (nth_indep _ [] (map (fun w => dot [] w) vecs))
      by (now rewrite length_map).
    apply (map_nth (fun v => map (fun w => dot v w) vecs)). }
  unfold mmr_of. rewrite Eq, Er.
  set (pen := match sel with
              | [] => 0
              | _ :: _ => np_max (masked mask (map (fun w => dot v w) vecs))
              end).
  assert (Hp : - (1) <= pen /\ pen <= 1).
  { unfold pen. destruct sel as [|s0 sr]; [split; discriminate|].
    destruct (masked mask (map (fun w => dot v w) vecs)) as [|x xs] eqn:Em.
    - simpl. split; discriminate.
    - assert (Hin : In (np_max (x :: xs)) (x :: xs))
        by (apply np_max_In; discriminate).
      rewrite <- Em in Hin. apply masked_In in Hin.
      destruct Hin as [j [_ Hj]]. apply nth_error_In in Hj.
      apply in_map_iff in Hj. destruct Hj as [w [Hw Hin]].
      rewrite <- Em, <- Hw. apply in_unit_iff. now apply Cd. }
  unfold sentinel. destruct Cq as [Q1 Q2]. destruct Hp as [P1 P2].
  assert (A1 : - lam <= lam * dot v qv) by nra.
  assert (A2 : (1 - lam) * pen <= 1 - lam) by nra.
  assert (S : - (1000000000 # 1) < - (1)) by reflexivity.
  lra.
Qed.



(** ** The title boost never fails on a consistent title table *)




(** ** The pool of [search] *)



(** ** A run of [search] on a well-formed retriever *)





(** ** Number of results *)







(** ** A reranker that always raises *)




(** ** The selector is the greedy algorithm *)

(** C2. On a pool whose offsets are within the corpus, [_mmr] returns the
    candidates at the positions of a greedy trace: it starts from the empty
    selection and every pick is an unselected position whose score
    [lambda * sim(query, i) - (1 - lambda) * max over selected j of
    sim(i, j)], with the maximum taken as 0 while nothing is selected, is the
    highest among the unselected positions.  When all scores exceed the
    initial best score of -1e9 it makes exactly [max(1, min(k, pool size))]
    picks.  With [lambda = 1] the picks come in descending order of the
    similarity to the query and no candidate left out is more similar than
    a picked one. *)
Theorem mmr_is_greedy self qv ids k lam :
  Forall (fun i => (i < List.length (_texts self))%nat) ids ->
  exists picks,
    _mmr self qv ids k lam = Return (map (fun p => nth p ids O) picks) /\
    greedy_trace
      (spec_mmr_score lam (sim_q_of (pool_vecs self ids) qv)
                      (sim_dd_of (pool_vecs self ids)))
      (List.length ids) picks /\
    (ids <> [] ->
     above_sentinel lam (sim_q_of (pool_vecs self ids) qv)
                    (sim_dd_of (pool_vecs self ids)) (List.length ids) ->
     List.length picks
     = Z.to_nat (Z.max 1 (Z.min k (Z.of_nat (List.length ids))))) /\
    (lam == 1 ->
     descending_top (fun i => nth i (sim_q_of (pool_vecs self ids) qv) 0)
                    (List.length ids) picks).
Proof.
  intros F.
  destruct (_mmr_greedy self qv ids k lam F)
    as [picks [E [G [_ [_ [_ A]]]]]].
  exists picks. split; [exact E|]. split; [exact G|]. split; [exact A|].
  intros H1. eapply greedy_descending; [|exact G].
  intros sel i. unfold spec_mmr_score. rewrite H1. ring.
Qed.

Lemma mmr_is_greedy_witness :
  exists picks,
    _mmr Fixture.retriever [3 # 5; 4 # 5] [0; 1; 2]%nat 2 1
      = Return (map (fun p => nth p [0; 1; 2]%nat O) picks) /\
    List.length picks = 2%nat /\
    descending_top
      (fun i => nth i (sim_q_of (pool_vecs Fixture.retriever [0; 1; 2]%nat)
                                [3 # 5; 4 # 5]) 0)
      3 picks.
Proof.
  destruct (mmr_is_greedy Fixture.retriever [3 # 5; 4 # 5] [0; 1; 2]%nat
                          2 1) as [picks [E [_ [L D]]]].
  - vm_compute. repeat constructor.
  - exists picks. split; [exact E|]. split.
    + apply L; [discriminate|].
      apply (cosine_above_sentinel 1
               (pool_vecs Fixture.retriever [0; 1; 2]%nat) [3 # 5; 4 # 5]).
      * discriminate.
      * discriminate.
      * vm_compute. reflexivity.
    + apply D. reflexivity.
Defined.

(** ** Scaling the dense scores *)

Lemma Qlt_bool_ext a b a' b' :
  (a < b <-> a' < b') -> Qlt_bool a b = Qlt_bool a' b'.
Proof.
  intros H. destruct (Qlt_bool a b) eqn:E1, (Qlt_bool a' b') eqn:E2;
    try reflexivity.
  - apply Qlt_bool_iff in E1. apply H in E1. apply Qlt_bool_iff in E1.
    congruence.
  - apply Qlt_bool_iff in E2. apply H in E2. apply Qlt_bool_iff in E2.
    congruence.
Qed.



Lemma nth_map2 {A B C} (f : A -> B -> C) l1 l2 i d1 d2 d :
  (i < List.length l1)%nat -> List.length l1 = List.length l2 ->
  nth i (map2 f l1 l2) d = f (nth i l1 d1) (nth i l2 d2).
Proof.
  revert l2 i. induction l1 as [|x r IH]; intros l2 i Hi Hl; simpl in Hi;
    [lia|].
  destruct l2 as [|y r2]; [discriminate|]. destruct i as [|i]; simpl;
    [reflexivity|].
  apply IH; simpl in *; lia.
Qed.

Lemma nth_map_in {A B} (f : A -> B) l i d d' :
  (i < List.length l)%nat -> nth i (map f l) d' = f (nth i l d).
Proof.
  intros H. rewrite (nth_indep _ d' (f d)) by (now rewrite length_map).
  apply map_nth.
Qed.

Lemma insert_desc_map {A B} (key : B -> Q) (f : A -> B) x l :
  insert_desc key (f x) (map f l)
  = map f (insert_desc (fun a => key (f a)) x l).
Proof.
  induction l as [|y r IH]; simpl; [reflexivity|].
  destruct (Qlt_bool (key (f x)) (key (f y))); simpl; [|reflexivity].
  now rewrite IH.
Qed.

Lemma sort_desc_map {A B} (key : B -> Q) (f : A -> B) l :
  sort_desc key (map f l) = map f (sort_desc (fun a => key (f a)) l).
Proof.
  induction l as [|x r IH]; simpl; [reflexivity|].
  rewrite IH. apply insert_desc_map.
Qed.

Lemma combine_positions (cands : list nat) (keys : list Q) :
  List.length cands = List.length keys ->
  combine cands keys
  = map (fun i => (nth i cands O, nth i keys 0))
        (seq 0 (List.length keys)).
Proof.
  revert keys. induction cands as [|a c IH]; intros [|k ks] H;
    try discriminate; [reflexivity|].
  simpl. f_equal. rewrite <- seq_shift, map_map. apply IH.
  simpl in H. lia.
Qed.

Lemma ranking_positions cands keys :
  List.length cands = List.length keys ->
  map fst (sort_desc snd (combine cands keys))
  = map (fun i => nth i cands O) (argsort_desc keys).
Proof.
  intros H. rewrite (combine_positions cands keys H).
  rewrite sort_desc_map, map_map. reflexivity.
Qed.

Lemma _minmax_nonempty v :
  v <> [] ->
  _minmax v
  = if Qlt_bool (np_max v - np_min v) eps then map (fun _ => 0) v
    else map (fun x => (x - np_min v) / (np_max v - np_min v + eps)) v.
Proof. destruct v; [congruence|reflexivity]. Qed.





(** * Further properties of the retriever *)

(** ** Range and order of the normalised scores *)

Lemma np_min_le_max l : l <> [] -> np_min l <= np_max l.
Proof.
  intros N. apply np_max_ge. now apply np_min_In.
Qed.



(** [_minmax] never reverses the order of two scores. *)
Theorem _minmax_monotone arr i j :
  (i < List.length arr)%nat -> (j < List.length arr)%nat ->
  nth i arr 0 <= nth j arr 0 ->
  nth i (_minmax arr) 0 <= nth j (_minmax arr) 0.
Proof.
  intros Hi Hj Hle.
  assert (N : arr <> []) by (destruct arr; [simpl in Hi; lia|discriminate]).
  rewrite (_minmax_nonempty arr N).
  destruct (Qlt_bool (np_max arr - np_min arr) eps) eqn:D.
  - rewrite !(nth_map_in (fun _ => 0) arr _ 0 0) by assumption.
    apply Qle_refl.
  - apply Qlt_bool_false in D. pose proof eps_pos as P.
    rewrite !(nth_map_in _ arr _ 0 0) by assumption.
    assert (Dp : 0 < np_max arr - np_min arr + eps) by lra.
    apply Qmult_le_compat_r; [lra|].
    apply Qlt_le_weak. now apply Qinv_lt_0_compat.
Qed.

Lemma _minmax_monotone_witness :
  nth 1 (_minmax [3; 1; 2]) 0 <= nth 2 (_minmax [3; 1; 2]) 0.
Proof.
  apply _minmax_monotone; simpl; try lia. discriminate.
Defined.

(** ** The descending stable sort *)

Section SortedFacts.
Variable A : Type.
Variable key : A -> Q.
Variable before : A -> A -> Prop.

(** Keys descend, and elements with equal keys are in the order
    [before]. *)
Definition desc_then (x y : A) : Prop :=
  key y <= key x /\ (key x <= key y -> before x y).

Lemma insert_desc_sorted x l :
  StronglySorted desc_then l ->
  Forall (before x) l ->
  StronglySorted desc_then (insert_desc key x l).
Proof.
  induction l as [|y r IH]; intros S F; simpl.
  - repeat constructor.
  - inversion S as [|y' r' Sr Fy]; subst. inversion F as [|y' r' By Br]; subst.
    destruct (Qlt_bool (key x) (key y)) eqn:C.
    + apply Qlt_bool_iff in C. constructor; [now apply IH|].
      apply Forall_forall. intros z Hz. apply insert_desc_In in Hz.
      destruct Hz as [->|Hz].
      * split; [now apply Qlt_le_weak|].
        intros H. exfalso. apply (Qlt_not_le _ _ C H).
      * rewrite Forall_forall in Fy. now apply Fy.
    + apply Qlt_bool_false in C. constructor; [exact S|].
      constructor.
      * split; [exact C|intros _; exact By].
      * apply Forall_forall. intros z Hz. rewrite Forall_forall in Fy, Br.
        destruct (Fy z Hz) as [H1 _]. split.
        -- eapply Qle_trans; eauto.
        -- intros _. now apply Br.
Qed.

Lemma sort_desc_sorted l :
  StronglySorted before l -> StronglySorted desc_then (sort_desc key l).
Proof.
  induction l as [|x r IH]; intros S; simpl; [constructor|].
  inversion S as [|x' r' Sr Fx]; subst.
  apply insert_desc_sorted; [now apply IH|].
  apply Forall_forall. intros z Hz.
  apply (proj1 (sort_desc_In A key r z)) in Hz.
  rewrite Forall_forall in Fx. now apply Fx.
Qed.

Lemma insert_desc_perm x l : Permutation (insert_desc key x l) (x :: l).
Proof.
  induction l as [|y r IH]; simpl; [apply Permutation_refl|].
  destruct (Qlt_bool (key x) (key y)).
  - eapply Permutation_trans; [apply perm_skip; exact IH|apply perm_swap].
  - apply Permutation_refl.
Qed.

Lemma sort_desc_perm l : Permutation (sort_desc key l) l.
Proof.
  induction l as [|x r IH]; simpl; [constructor|].
  eapply Permutation_trans; [apply insert_desc_perm|now apply perm_skip].
Qed.
End SortedFacts.

Lemma StronglySorted_map_inv {A B} (R : B -> B -> Prop) (f : A -> B) l :
  StronglySorted R (map f l) ->
  StronglySorted (fun x y => R (f x) (f y)) l.
Proof.
  induction l as [|x r IH]; intros S; [constructor|].
  simpl in S. inversion S as [|x' r' Sr Fx]; subst.
  constructor; [now apply IH|].
  rewrite Forall_map in Fx. exact Fx.
Qed.

(** ** The candidate union *)

Lemma insert_uniq_In x l z : In z (insert_uniq x l) <-> z = x \/ In z l.
Proof.
  induction l as [|y r IH]; simpl; [intuition auto|].
  destruct (x <? y)%nat eqn:E1; simpl; [intuition auto|].
  destruct (x =? y)%nat eqn:E2; simpl.
  - apply Nat.eqb_eq in E2. subst. intuition auto.
  - rewrite IH. intuition auto.
Qed.

Lemma insert_uniq_sorted x l :
  StronglySorted lt l -> StronglySorted lt (insert_uniq x l).
Proof.
  induction l as [|y r IH]; intros S; simpl; [repeat constructor|].
  inversion S as [|y' r' Sr Fy]; subst.
  destruct (x <? y)%nat eqn:E1.
  - apply Nat.ltb_lt in E1. constructor; [exact S|].
    constructor; [exact E1|].
    apply Forall_forall. intros z Hz. rewrite Forall_forall in Fy.
    specialize (Fy z Hz). lia.
  - apply Nat.ltb_ge in E1. destruct (x =? y)%nat eqn:E2; [exact S|].
    apply Nat.eqb_neq in E2. constructor; [now apply IH|].
    apply Forall_forall. intros z Hz. apply insert_uniq_In in Hz.
    destruct Hz as [->|Hz]; [lia|].
    rewrite Forall_forall in Fy. now apply Fy.
Qed.

Lemma sorted_set_In l z : In z (sorted_set l) <-> In z l.
Proof.
  induction l as [|x r IH]; simpl; [reflexivity|].
  rewrite insert_uniq_In, IH. intuition auto.
Qed.

Lemma sorted_set_sorted l : StronglySorted lt (sorted_set l).
Proof.
  induction l as [|x r IH]; simpl; [constructor|].
  now apply insert_uniq_sorted.
Qed.

Lemma StronglySorted_lt_NoDup l : StronglySorted lt l -> NoDup l.
Proof.
  induction l as [|x r IH]; intros S; [constructor|].
  inversion S as [|x' r' Sr Fx]; subst. constructor; [|now apply IH].
  intros H. rewrite Forall_forall in Fx. specialize (Fx x H). lia.
Qed.

Lemma cand_list_sorted self query :
  StronglySorted lt (cand_list self query).
Proof. unfold cand_list. apply sorted_set_sorted. Qed.

Lemma cand_list_NoDup self query : NoDup (cand_list self query).
Proof. apply StronglySorted_lt_NoDup. apply cand_list_sorted. Qed.

(** The candidate union holds exactly the offsets found by the dense
    search or by the sparse search, each once and in ascending order. *)
Theorem cand_list_union self query :
  (forall i, In i (cand_list self query) <->
        In i (dict_keys (vec_map self query)) \/
        In i (fst (bm25_search self query))) /\
  StronglySorted lt (cand_list self query) /\
  NoDup (cand_list self query).
Proof.
  split; [|split].
  - intros i. unfold cand_list.
    rewrite sorted_set_In, in_app_iff. reflexivity.
  - apply cand_list_sorted.
  - apply cand_list_NoDup.
Qed.

(** ** The ranking of [_hybrid_rank] *)

Lemma title_boosts_length self query tb :
  title_boosts self query = Return tb ->
  List.length tb = List.length (cand_list self query).
Proof.
  unfold title_boosts.
  assert (Z0 : forall tb0, Return (map (fun _ : nat => 0) (cand_list self query))
                        = Return tb0 ->
                      List.length tb0 = List.length (cand_list self query)).
  { intros tb0 H. inversion H. now rewrite length_map. }
  destruct (use_titles self); [|apply Z0].
  destruct (_titles_vecs self); [|apply Z0].
  destruct (_title_sim self (_encode_query self query)) as [e|tmap];
    simpl; [discriminate|].
  destruct tmap as [|p ps]; [apply Z0|].
  intros H. apply mapM_Return in H. apply H.
Qed.

(** The rows that [_hybrid_rank] sorts, in candidate order. *)
Lemma _hybrid_rank_unsorted self query ranked :
  _hybrid_rank self query = Return ranked -> ranked <> [] ->
  exists rows,
    ranked = sort_desc total_score rows /\
    map chunk_idx rows = cand_list self query.
Proof.
  unfold _hybrid_rank. destruct (meta self) as [|m ms].
  { intros H N. inversion H. congruence. }
  destruct (cand_list self query) as [|c cs] eqn:Ec.
  { intros H N. inversion H. congruence. }
  destruct (title_boosts self query) as [e|tb] eqn:Et; simpl;
    [discriminate|].
  intros H _. inversion H; subst ranked; clear H.
  pose proof (title_boosts_length self query tb Et) as Lt.
  destruct (cand_arr_lengths self query) as [Lv Lb].
  rewrite Ec in Lt, Lv, Lb.
  eexists. split; [reflexivity|].
  apply zip_rows_idx; rewrite ?_minmax_length; auto.
  - rewrite fuse_length; congruence.
  - rewrite map2_length; rewrite fuse_length; congruence.
Qed.

Lemma ranked_ids_perm self query ranked :
  _hybrid_rank self query = Return ranked -> ranked <> [] ->
  Permutation (map chunk_idx ranked) (cand_list self query).
Proof.
  intros H N.
  destruct (_hybrid_rank_unsorted self query ranked H N) as [rows [E I]].
  rewrite E, <- I. apply Permutation_map. apply sort_desc_perm.
Qed.

Lemma ranked_ids_NoDup self query ranked :
  _hybrid_rank self query = Return ranked -> NoDup (map chunk_idx ranked).
Proof.
  intros H. destruct ranked as [|r0 rs] eqn:E; [constructor|].
  rewrite <- E in *.
  eapply Permutation_NoDup;
    [apply Permutation_sym; apply (ranked_ids_perm self query ranked H);
     rewrite E; discriminate|].
  apply cand_list_NoDup.
Qed.

(** Every candidate of the union has exactly one row in the ranking. *)
Theorem _hybrid_rank_permutation self query ranked :
  _hybrid_rank self query = Return ranked -> ranked <> [] ->
  Permutation (map chunk_idx ranked) (cand_list self query) /\
  NoDup (map chunk_idx ranked).
Proof.
  intros H N. split.
  - now apply ranked_ids_perm.
  - eapply ranked_ids_NoDup; eauto.
Qed.

Lemma _hybrid_rank_permutation_witness :
  exists ranked,
    _hybrid_rank Fixture.retriever "alpha" = Return ranked /\
    Permutation (map chunk_idx ranked) [0; 1; 2]%nat.
Proof.
  destruct (_hybrid_rank Fixture.retriever "alpha") as [e|ranked] eqn:E;
    [vm_compute in E; discriminate|].
  exists ranked. split; [reflexivity|].
  replace [0; 1; 2]%nat with (cand_list Fixture.retriever "alpha")
    by (vm_compute; reflexivity).
  apply (_hybrid_rank_permutation Fixture.retriever "alpha" ranked E).
  vm_compute in E. inversion E. discriminate.
Defined.

(** The ranking is in descending order of the total score, and rows with
    equal total scores are in ascending order of the chunk offset. *)
Theorem _hybrid_rank_sorted self query ranked :
  _hybrid_rank self query = Return ranked ->
  StronglySorted
    (fun r1 r2 =>
       total_score r2 <= total_score r1 /\
       (total_score r1 <= total_score r2 ->
        (chunk_idx r1 < chunk_idx r2)%nat))
    ranked.
Proof.
  intros H. destruct ranked as [|r0 rs] eqn:Er; [constructor|].
  rewrite <- Er in *.
  destruct (_hybrid_rank_unsorted self query ranked H) as [rows [E I]];
    [rewrite Er; discriminate|].
  rewrite E.
  apply (sort_desc_sorted RankedRow total_score
           (fun r1 r2 => (chunk_idx r1 < chunk_idx r2)%nat)).
  apply StronglySorted_map_inv. rewrite I.
  apply cand_list_sorted.
Qed.

Lemma _hybrid_rank_sorted_witness :
  exists ranked,
    _hybrid_rank Fixture.retriever "alpha" = Return ranked /\
    List.length ranked = 3%nat /\
    StronglySorted
      (fun r1 r2 =>
         total_score r2 <= total_score r1 /\
         (total_score r1 <= total_score r2 ->
          (chunk_idx r1 < chunk_idx r2)%nat))
      ranked.
Proof.
  destruct (_hybrid_rank Fixture.retriever "alpha") as [e|ranked] eqn:E;
    [vm_compute in E; discriminate|].
  exists ranked. split; [reflexivity|]. split.
  - vm_compute in E. inversion E. reflexivity.
  - exact (_hybrid_rank_sorted Fixture.retriever "alpha" ranked E).
Defined.




(** ** Distinct selections *)

Lemma NoDup_map_in {A B} (f : A -> B) l :
  (forall x y, In x l -> In y l -> f x = f y -> x = y) ->
  NoDup l -> NoDup (map f l).
Proof.
  induction l as [|x r IH]; intros Inj Nd; [constructor|].
  inversion Nd as [|x' r' Hx Hr]; subst. simpl. constructor.
  - intros H. apply in_map_iff in H. destruct H as [y [E Hy]].
    assert (y = x) by (apply Inj; [now right|now left|exact E]).
    subst. contradiction.
  - apply IH; [|exact Hr]. intros a b Ha Hb. apply Inj; now right.
Qed.

Lemma NoDup_positions (ids picks : list nat) :
  NoDup ids -> NoDup picks ->
  (forall p, In p picks -> (p < List.length ids)%nat) ->
  NoDup (map (fun p => nth p ids O) picks).
Proof.
  intros Ni Np Hr. apply NoDup_map_in; [|exact Np].
  intros x y Hx Hy E.
  apply (proj1 (NoDup_nth ids O) Ni); auto.
Qed.

Lemma NoDup_firstn {A} n (l : list A) : NoDup l -> NoDup (firstn n l).
Proof.
  revert n. induction l as [|x r IH]; intros [|n] Nd; simpl;
    try constructor.
  - inversion Nd; subst. intros H. apply firstn_incl in H. contradiction.
  - inversion Nd; subst. now apply IH.
Qed.

Lemma NoDup_slice_to {A} n (l : list A) : NoDup l -> NoDup (slice_to n l).
Proof.
  intros H. unfold slice_to. destruct (0 <=? n)%Z; now apply NoDup_firstn.
Qed.

Lemma positions_bound (n : nat) (picks : list nat) :
  NoDup picks -> (forall p, In p picks -> (p < n)%nat) ->
  (List.length picks <= n)%nat.
Proof.
  intros Nd Hr. rewrite <- (length_seq n 0).
  apply NoDup_incl_length; [exact Nd|].
  intros p Hp. apply in_seq. specialize (Hr p Hp). lia.
Qed.

(** On a pool of distinct offsets within the corpus, [_mmr] returns a list
    of distinct offsets of the pool, never longer than the pool. *)
Theorem _mmr_selects_distinct self qv ids k lam :
  Forall (fun i => (i < List.length (_texts self))%nat) ids ->
  NoDup ids ->
  exists out,
    _mmr self qv ids k lam = Return out /\
    NoDup out /\ incl out ids /\
    (List.length out <= List.length ids)%nat.
Proof.
  intros F Nd.
  destruct (_mmr_greedy self qv ids k lam F)
    as [picks [E [_ [Np [Hr _]]]]].
  exists (map (fun p => nth p ids O) picks).
  split; [exact E|]. split; [now apply NoDup_positions|]. split.
  - intros x Hx. apply in_map_iff in Hx. destruct Hx as [p [<- Hp]].
    apply nth_In. now apply Hr.
  - rewrite length_map. now apply positions_bound.
Qed.

Lemma _mmr_selects_distinct_witness :
  exists out,
    _mmr Fixture.retriever [3 # 5; 4 # 5] [2; 0; 1]%nat 5 (6 # 10)
      = Return out /\
    NoDup out /\ incl out [2; 0; 1]%nat.
Proof.
  destruct (_mmr_selects_distinct Fixture.retriever [3 # 5; 4 # 5]
                                  [2; 0; 1]%nat 5 (6 # 10))
    as [out [E [Nd [I _]]]].
  - vm_compute. repeat constructor.
  - repeat constructor; simpl; intuition discriminate.
  - exists out. auto.
Defined.

(** ** Asking for more results *)

Lemma mmr_loop_extends lam ids sim_q sim_dd steps : forall selected mask,
  exists rest,
    mmr_loop lam ids sim_q sim_dd steps selected mask = selected ++ rest.
Proof.
  induction steps as [|steps IH]; intros selected mask; simpl.
  - exists []. now rewrite app_nil_r.
  - destruct (fst (mmr_pass lam sim_q sim_dd selected mask
                            (List.length ids))) as [b|].
    + destruct (IH (selected ++ [nth b ids O]) (set_true b mask))
        as [rest E].
      exists (nth b ids O :: rest). rewrite E, <- app_assoc. reflexivity.
    + exists []. now rewrite app_nil_r.
Qed.

Lemma mmr_loop_prefix lam ids sim_q sim_dd s1 d : forall selected mask,
  exists rest,
    mmr_loop lam ids sim_q sim_dd (s1 + d) selected mask
    = mmr_loop lam ids sim_q sim_dd s1 selected mask ++ rest.
Proof.
  induction s1 as [|s1 IH]; intros selected mask.
  - simpl. apply mmr_loop_extends.
  - simpl. destruct (fst (mmr_pass lam sim_q sim_dd selected mask
                                   (List.length ids))) as [b|].
    + apply IH.
    + exists []. now rewrite app_nil_r.
Qed.

(** Raising [k] only appends to the selection of [_mmr]: the selection for
    a smaller [k] is a prefix of the selection for a larger one. *)
Theorem _mmr_prefix self qv ids k1 k2 lam :
  Forall (fun i => (i < List.length (_texts self))%nat) ids ->
  (k1 <= k2)%Z ->
  exists out1 rest,
    _mmr self qv ids k1 lam = Return out1 /\
    _mmr self qv ids k2 lam = Return (out1 ++ rest).
Proof.
  intros F Hk. unfold _mmr. destruct ids as [|i0 r] eqn:Eids.
  { exists [], []. split; reflexivity. }
  rewrite <- Eids in *.
  rewrite (mapM_getitem (_texts self) EmptyString ids F). simpl bind.
  set (n := Z.of_nat (List.length ids)).
  set (s1 := Z.to_nat (Z.max 1 (Z.min k1 n))).
  set (s2 := Z.to_nat (Z.max 1 (Z.min k2 n))).
  assert (Hs : s2 = (s1 + (s2 - s1))%nat) by (unfold s1, s2; lia).
  rewrite Hs.
  match goal with
  | |- context [mmr_loop ?l ?i ?q ?dd (s1 + (s2 - s1)) ?sel ?m] =>
      destruct (mmr_loop_prefix l i q dd s1 (s2 - s1) sel m) as [rest E]
  end.
  eexists. exists rest. split; [reflexivity|]. now rewrite E.
Qed.

Lemma _mmr_prefix_witness :
  exists out1 rest,
    _mmr Fixture.retriever [3 # 5; 4 # 5] [0; 1; 2]%nat 1 (6 # 10)
      = Return out1 /\
    _mmr Fixture.retriever [3 # 5; 4 # 5] [0; 1; 2]%nat 3 (6 # 10)
      = Return (out1 ++ rest).
Proof.
  apply _mmr_prefix.
  - vm_compute. repeat constructor.
  - lia.
Defined.

(** ** A reranker that answers *)


Lemma argsort_desc_perm a :
  Permutation (argsort_desc a) (seq 0 (List.length a)).
Proof. unfold argsort_desc. apply sort_desc_perm. Qed.



(** ** What [search] returns *)

Lemma mapM_getitem_Return {A} (l : list A) (d : A) idxs out :
  mapM (getitem l) idxs = Return out ->
  out = map (fun i => nth i l d) idxs /\
  Forall (fun i => (i < List.length l)%nat) idxs.
Proof.
  revert out. induction idxs as [|i r IH]; intros out H; simpl in H.
  - inversion H. split; [reflexivity|constructor].
  - destruct (getitem l i) as [e|x] eqn:Eg; simpl in H; [discriminate|].
    destruct (mapM (getitem l) r) as [e|xs] eqn:Er; simpl in H;
      [discriminate|].
    inversion H; subst out. destruct (IH xs eq_refl) as [E F].
    apply getitem_Return in Eg.
    assert (Hi : (i < List.length l)%nat)
      by (apply nth_error_Some; congruence).
    split; [|constructor; assumption].
    simpl. rewrite <- E. f_equal.
    symmetry. now apply nth_error_nth.
Qed.

Lemma slice_to_map {A B} (f : A -> B) n l :
  map f (slice_to n l) = slice_to n (map f l).
Proof.
  unfold slice_to. rewrite length_map.
  destruct (0 <=? n)%Z; symmetry; apply firstn_map.
Qed.

Lemma argsort_desc_NoDup a : NoDup (argsort_desc a).
Proof.
  eapply Permutation_NoDup;
    [apply Permutation_sym; apply argsort_desc_perm|apply seq_NoDup].
Qed.

Lemma _rerank_Return self query cands pool :
  _rerank self query cands (Z.of_nat (List.length cands)) = Return pool ->
  NoDup cands -> NoDup pool /\ incl pool cands.
Proof.
  unfold _rerank. intros H Nd.
  assert (P : forall p, Return (slice_to (Z.of_nat (List.length cands)) cands)
                   = Return p -> NoDup p /\ incl p cands).
  { intros p E. rewrite slice_to_all in E. inversion E; subst p.
    split; [exact Nd|apply incl_refl]. }
  destruct cands as [|c cs] eqn:Ec; [now apply P|]. rewrite <- Ec in *.
  destruct (_reranker self) as [predict|]; [|now apply P].
  destruct (mapM _ cands) as [e|pairs]; simpl in H; [discriminate|].
  destruct (predict pairs) as [scores|]; [|now apply P].
  destruct (mapM (getitem cands) _) as [e|reordered] eqn:Em;
    [now apply P|].
  inversion H; subst pool.
  apply (mapM_getitem_Return cands O) in Em. destruct Em as [E F].
  rewrite Forall_forall in F. subst reordered. split.
  - apply NoDup_positions; [exact Nd| |exact F].
    apply NoDup_slice_to. apply argsort_desc_NoDup.
  - intros x Hx. apply in_map_iff in Hx. destruct Hx as [i [<- Hi]].
    apply nth_In. now apply F.
Qed.

Lemma search_pool_Return self query ranked pool :
  search_pool self query ranked = Return pool ->
  NoDup (map chunk_idx ranked) ->
  NoDup pool /\ incl pool (map chunk_idx ranked).
Proof.
  unfold search_pool.
  set (pool0 := map chunk_idx
                    (slice_to (Z.max (mmr_pool self) (rerank_from self))
                              ranked)).
  intros H Nd.
  assert (N0 : NoDup pool0)
    by (unfold pool0; rewrite slice_to_map; now apply NoDup_slice_to).
  assert (I0 : incl pool0 (map chunk_idx ranked)).
  { unfold pool0. rewrite slice_to_map. intros x. apply slice_to_incl. }
  assert (P : forall p, Return pool0 = Return p ->
                   NoDup p /\ incl p (map chunk_idx ranked)).
  { intros p E. inversion E; subst p. auto. }
  destruct (_reranker self); [|now apply P].
  destruct pool0 as [|c cs] eqn:Ep; [now apply P|]. rewrite <- Ep in *.
  destruct (_rerank_Return self query pool0 pool H N0) as [N1 I1].
  split; [exact N1|]. intros x Hx. apply I0. now apply I1.
Qed.

Lemma _mmr_Return self qv ids k lam out :
  _mmr self qv ids k lam = Return out -> NoDup ids ->
  NoDup out /\ incl out ids.
Proof.
  intros H Nd.
  assert (F : Forall (fun i => (i < List.length (_texts self))%nat) ids).
  { unfold _mmr in H. destruct ids as [|i0 r] eqn:E; [constructor|].
    rewrite <- E in *.
    destruct (mapM (getitem (_texts self)) ids) as [e|ts] eqn:Em;
      simpl in H; [discriminate|].
    apply (mapM_getitem_Return (_texts self) EmptyString) in Em.
    apply Em. }
  destruct (_mmr_greedy self qv ids k lam F)
    as [picks [E [_ [Np [Hr _]]]]].
  rewrite E in H. inversion H; subst out. split.
  - now apply NoDup_positions.
  - intros x Hx. apply in_map_iff in Hx. destruct Hx as [p [<- Hp]].
    apply nth_In. now apply Hr.
Qed.

(** The structure of a search that returns. *)
Lemma search_Return self query top out :
  search self query top = Return out ->
  exists ranked final,
    _hybrid_rank self query = Return ranked /\
    NoDup final /\ incl final (map chunk_idx ranked) /\
    mapM (build_result self ranked) final = Return out.
Proof.
  unfold search. intros H.
  destruct (_hybrid_rank self query) as [e|ranked] eqn:Er; simpl in H;
    [discriminate|].
  exists ranked. destruct ranked as [|r0 rs] eqn:Eranked.
  { inversion H; subst out. exists []. repeat split; try constructor.
    intros x []. }
  rewrite <- Eranked in *.
  destruct (search_pool self query ranked) as [e|pool] eqn:Ep; simpl in H;
    [discriminate|].
  destruct (_mmr self (_encode_query self query) pool
                 (or_else top (top_k self)) (mmr_lambda self))
    as [e|final] eqn:Em; simpl in H; [discriminate|].
  pose proof (ranked_ids_NoDup self query ranked Er) as Nr.
  destruct (search_pool_Return self query ranked pool Ep Nr) as [Np Ip].
  destruct (_mmr_Return self _ pool _ _ final Em Np) as [Nf If].
  exists final. split; [reflexivity|]. split; [exact Nf|].
  split; [|exact H]. intros x Hx. apply Ip. now apply If.
Qed.

Lemma mapM_Forall2 {A B} (f : A -> result B) l ys :
  mapM f l = Return ys -> Forall2 (fun y x => f x = Return y) ys l.
Proof.
  revert ys. induction l as [|x r IH]; intros ys H; simpl in H.
  - inversion H. constructor.
  - destruct (f x) as [e|y] eqn:Ef; simpl in H; [discriminate|].
    destruct (mapM f r) as [e|ys'] eqn:Er; simpl in H; [discriminate|].
    inversion H; subst. constructor; [exact Ef|now apply IH].
Qed.


(** The results of a search are the records of distinct chunk offsets of
    the candidate union: no chunk is returned twice and nothing outside the
    candidates is returned. *)
Theorem search_distinct_candidates self query top out :
  search self query top = Return out ->
  exists ids,
    NoDup ids /\ incl ids (cand_list self query) /\
    Forall2 (fun s i => nth_error (meta self) i = Some (chunk s)) out ids.
Proof.
  intros H.
  destruct (search_Return self query top out H)
    as [ranked [final [Hr [Nf [If Hm]]]]].
  exists final. split; [exact Nf|]. split.
  - intros x Hx. apply If in Hx.
    destruct ranked as [|r0 rs] eqn:E; [destruct Hx|]. rewrite <- E in *.
    eapply Permutation_in;
      [apply (ranked_ids_perm self query ranked Hr); rewrite E;
       discriminate|exact Hx].
  - apply mapM_Forall2 in Hm. eapply Forall2_impl; [|exact Hm].
    intros s i Hb. unfold build_result in Hb.
    destruct (getitem (meta self) i) as [e|m] eqn:Eg; simpl in Hb;
      [discriminate|].
    apply getitem_Return in Eg. rewrite Eg. f_equal.
    destruct (dict_get Nat.eqb i _); inversion Hb; reflexivity.
Qed.

Lemma search_distinct_candidates_witness :
  exists out ids,
    search Fixture.retriever "alpha" (Some 2%Z) = Return out /\
    List.length out = 2%nat /\
    NoDup ids /\
    Forall2 (fun s i => nth_error (meta Fixture.retriever) i
                        = Some (chunk s)) out ids.
Proof.
  destruct (search Fixture.retriever "alpha" (Some 2%Z)) as [e|out] eqn:E;
    [vm_compute in E; discriminate|].
  destruct (search_distinct_candidates Fixture.retriever "alpha"
                                       (Some 2%Z) out E)
    as [ids [Nd [_ F]]].
  exists out, ids. split; [reflexivity|]. split; [|auto].
  vm_compute in E. inversion E. reflexivity.
Defined.



(** ** The title table built by the constructor *)

Lemma dict_get_set_string {V} (t t' : string) (v : V) d :
  dict_get String.eqb t' (dict_set String.eqb t v d)
  = if String.eqb t' t then Some v else dict_get String.eqb t' d.
Proof.
  induction d as [|[k x] r IH]; simpl.
  - reflexivity.
  - destruct (String.eqb t k) eqn:E1.
    + apply String.eqb_eq in E1. subst k. simpl.
      destruct (String.eqb t' t); reflexivity.
    + simpl. destruct (String.eqb t' k) eqn:E2.
      * apply String.eqb_eq in E2. subst k.
        rewrite String.eqb_sym, E1. reflexivity.
      * exact IH.
Qed.

Definition titles_inv (seen : list Chunk.t)
           (acc : list string * list (string * nat)) : Prop :=
  NoDup (fst acc) /\
  (forall t, In t (fst acc) <->
        t <> EmptyString /\ exists m, In m seen /\ title_of m = t) /\
  (forall t i, dict_get String.eqb t (snd acc) = Some i <->
          nth_error (fst acc) i = Some t).

Lemma collect_titles_step seen acc m :
  titles_inv seen acc ->
  titles_inv (seen ++ [m])
    (let t := strip (or_else (Chunk.title m) EmptyString) in
     if String.eqb t EmptyString then acc
     else match dict_get String.eqb t (snd acc) with
          | Some _ => acc
          | None =>
              (fst acc ++ [t],
               dict_set String.eqb t (List.length (fst acc)) (snd acc))
          end).
Proof.
  intros [Nd [Hin Hrow]]. fold (title_of m). cbv zeta.
  assert (Old : forall t, (exists m0, In m0 seen /\ title_of m0 = t) ->
                     exists m0, In m0 (seen ++ [m]) /\ title_of m0 = t).
  { intros t [m0 [H1 H2]]. exists m0. split; [|exact H2].
    apply in_or_app. now left. }
  assert (New : forall t, (exists m0, In m0 (seen ++ [m]) /\ title_of m0 = t) ->
                     (exists m0, In m0 seen /\ title_of m0 = t)
                     \/ title_of m = t).
  { intros t [m0 [H1 H2]]. apply in_app_or in H1.
    destruct H1 as [H1|[<-|[]]]; [left; eauto|now right]. }
  destruct (String.eqb (title_of m) EmptyString) eqn:Ee.
  - apply String.eqb_eq in Ee. split; [exact Nd|]. split; [|exact Hrow].
    intros t. rewrite Hin. split; intros [Ht Hm]; split; auto.
    destruct (New t Hm) as [H|H]; [exact H|congruence].
  - apply String.eqb_neq in Ee.
    destruct (dict_get String.eqb (title_of m) (snd acc)) as [i|] eqn:Eg.
    + split; [exact Nd|]. split; [|exact Hrow].
      intros t. rewrite Hin. split; intros [Ht Hm]; split; auto.
      destruct (New t Hm) as [H|H]; [exact H|]. subst t.
      apply Hrow in Eg. apply nth_error_In in Eg. apply Hin in Eg.
      apply Eg.
    + assert (Hnot : ~ In (title_of m) (fst acc)).
      { intros H. apply In_nth_error in H. destruct H as [i Hi].
        apply Hrow in Hi. congruence. }
      unfold titles_inv. cbn [fst snd]. split; [|split].
      * apply NoDup_app; [exact Nd|repeat constructor; intros []|].
        intros x Hx [<-|[]]. contradiction.
      * intros t. rewrite in_app_iff, Hin. simpl. split.
        -- intros [[Ht Hm]|[<-|[]]]; split; auto.
           exists m. split; [apply in_or_app; right; now left|reflexivity].
        -- intros [Ht Hm]. destruct (New t Hm) as [H|H]; [left; auto|].
           right. now left.
      * intros t i. rewrite dict_get_set_string.
        destruct (String.eqb t (title_of m)) eqn:Et.
        -- apply String.eqb_eq in Et. subst t. split.
           ++ intros H. inversion H; subst i. now rewrite nth_error_app2,
                Nat.sub_diag by lia.
           ++ intros H.
              destruct (Nat.lt_ge_cases i (List.length (fst acc)))
                as [Hlt|Hge].
              ** rewrite nth_error_app1 in H by exact Hlt.
                 apply nth_error_In in H. contradiction.
              ** assert (Hi : (i < List.length (fst acc ++ [title_of m]))%nat)
                   by (apply nth_error_Some; congruence).
                 rewrite length_app in Hi. simpl in Hi.
                 f_equal. lia.
        -- apply String.eqb_neq in Et. rewrite Hrow. split.
           ++ intros H. rewrite nth_error_app1; [exact H|].
              apply nth_error_Some. congruence.
           ++ intros H.
              destruct (Nat.lt_ge_cases i (List.length (fst acc)))
                as [Hlt|Hge].
              ** now rewrite nth_error_app1 in H by exact Hlt.
              ** rewrite nth_error_app2 in H by exact Hge.
                 destruct (i - List.length (fst acc))%nat as [|j];
                   simpl in H; [inversion H; congruence|].
                 destruct j; discriminate.
Qed.

Lemma collect_titles_fold meta : forall seen acc,
  titles_inv seen acc ->
  titles_inv (seen ++ meta)
    (fold_left
       (fun acc m =>
          let t := strip (or_else (Chunk.title m) EmptyString) in
          if String.eqb t EmptyString then acc
          else match dict_get String.eqb t (snd acc) with
               | Some _ => acc
               | None =>
                   (fst acc ++ [t],
                    dict_set String.eqb t (List.length (fst acc)) (snd acc))
               end)
       meta acc).
Proof.
  induction meta as [|m r IH]; intros seen acc Inv; simpl.
  - now rewrite app_nil_r.
  - replace (seen ++ m :: r) with ((seen ++ [m]) ++ r)
      by (now rewrite <- app_assoc).
    apply IH. now apply collect_titles_step.
Qed.

(** The title list holds each non-empty stripped title of the metadata
    exactly once, and [_title_to_row] maps a title to its position in the
    list and nothing else. *)
Theorem collect_titles_table meta :
  NoDup (fst (collect_titles meta)) /\
  (forall t, In t (fst (collect_titles meta)) <->
        t <> EmptyString /\ exists m, In m meta /\ title_of m = t) /\
  (forall t i, dict_get String.eqb t (snd (collect_titles meta)) = Some i <->
          nth_error (fst (collect_titles meta)) i = Some t).
Proof.
  apply (collect_titles_fold meta [] ([], [])).
  split; [constructor|]. split.
  - intros t. simpl. split; [intros []|intros [_ [m [[] _]]]].
  - intros t i. simpl. split; [discriminate|].
    destruct i; discriminate.
Qed.

(** ** What the constructor establishes *)

Ltac read_some k d H :=
  let E := fresh "E" in
  let M := fresh "M" in
  let v := fresh "v" in
  destruct (read_knob_cases k d) as [[M E]|[M [v E]]];
  rewrite E in H; simpl bind in H; [discriminate H|].

(** The titles part of the constructor, given the title switch and the
    state of [titles.npy]. *)
Lemma titles_cases (b : bool) (npy : option (option (list (list Q))))
      (chunks : list Chunk.t) :
  let titles :=
    match b, npy with
    | true, Some loaded =>
        let tl := collect_titles chunks in
        match loaded with
        | Some vecs =>
            if negb (List.length vecs =? List.length (fst tl))%nat
            then (tl, None, false)
            else (tl, Some vecs, true)
        | None => (tl, None, false)
        end
    | _, _ => (([], []), None, false)
    end in
  (snd titles = true ->
   b = true /\
   exists vecs, npy = Some (Some vecs) /\
           snd (fst titles) = Some vecs /\
           List.length vecs = List.length (fst (fst (fst titles))) /\
           fst (fst (fst titles)) = fst (collect_titles chunks)) /\
  (snd titles = false -> snd (fst titles) = None).
Proof.
  destruct b; [|simpl; split; [discriminate|reflexivity]].
  destruct npy as [[vecs|]|]; try (simpl; split; [discriminate|reflexivity]).
  cbv zeta beta iota.
  destruct (List.length vecs =? List.length (fst (collect_titles chunks)))%nat
    eqn:E; simpl.
  - apply Nat.eqb_eq in E. split; [|discriminate].
    intros _. split; [reflexivity|]. exists vecs. auto.
  - split; [discriminate|reflexivity].
Qed.

Lemma init_facts w k self :
  __init__ w k = Return self ->
  top_k self = k /\
  List.length (_texts self) = List.length (meta self) /\
  (use_titles self = true ->
   exists vecs, _titles_vecs self = Some vecs /\
           List.length vecs = List.length (_titles_list self) /\
           _titles_list self = fst (collect_titles (meta self))) /\
  (use_titles self = false -> _titles_vecs self = None) /\
  (_bm25 self = None <-> meta self = [] \/ BM25Okapi w = None).
Proof.
  intros H. unfold __init__ in H.
  read_some (RAG_ALPHA w) (6 # 10) H.
  read_some (RAG_VEC_K w) (Z.max (k * 5) 50) H.
  read_some (RAG_BM25_K w) (Z.max (k * 5) 50) H.
  read_some (RAG_MMR_LAMBDA w) (6 # 10) H.
  read_some (RAG_MMR_POOL w) (Z.max (k * 3) 15) H.
  read_some (RAG_RERANK_FROM w) (Z.max (k * 5) 20) H.
  read_some (RAG_TITLE_BOOST w) (1 # 4) H.
  read_some (RAG_TITLE_K w) 64%Z H.
  destruct (INDEX_PATH w) as [idx|]; [|discriminate H].
  destruct (META_PATH w) as [chunks|]; [|discriminate H].
  inversion H; subst self; clear H. cbn [top_k _texts meta use_titles
    _titles_vecs _titles_list _bm25].
  pose proof (titles_cases
                (negb (String.eqb (or_else (RAG_USE_TITLES w) "1"%string) "0"
                       || String.eqb (or_else (RAG_USE_TITLES w) "1"%string)
                                     "false"
                       || String.eqb (or_else (RAG_USE_TITLES w) "1"%string)
                                     "False"))
                (TITLES_NPY w) chunks) as [T1 T2].
  cbv zeta in T1, T2.
  split; [reflexivity|]. split; [now rewrite length_map|].
  split; [|split; [exact T2|]].
  - intros U. destruct (T1 U) as [_ [vecs [_ [Ev [El Et]]]]].
    exists vecs. auto.
  - destruct chunks as [|c cs]; simpl.
    + split; [intros _; now left|reflexivity].
    + destruct (BM25Okapi w).
      * split; [discriminate|]. intros [X|X]; discriminate.
      * split; [intros _; now right|reflexivity].
Qed.

(** A retriever returned by the constructor keeps [top_k], has one text
    per metadata record, has title vectors exactly when [use_titles] holds,
    then with one row per collected title, and has a lexical scorer exactly
    when the corpus is not empty and BM25 is importable. *)
Theorem __init___establishes w k self :
  __init__ w k = Return self ->
  top_k self = k /\
  List.length (_texts self) = List.length (meta self) /\
  (use_titles self = true ->
   exists vecs, _titles_vecs self = Some vecs /\
           List.length vecs = List.length (_titles_list self) /\
           _titles_list self = fst (collect_titles (meta self))) /\
  (use_titles self = false -> _titles_vecs self = None) /\
  (_bm25 self = None <-> meta self = [] \/ BM25Okapi w = None).
Proof. apply init_facts. Qed.

Lemma __init___establishes_witness :
  top_k Fixture.retriever = 4%Z /\
  List.length (_texts Fixture.retriever)
  = List.length (meta Fixture.retriever).
Proof.
  destruct (__init___establishes Fixture.world 4 Fixture.retriever)
    as [H1 [H2 _]].
  - reflexivity.
  - split; assumption.
Defined.

(** ** Default configuration *)





(** ** A title table that matches the metadata *)

Lemma use_titles_wanted w :
  titles_wanted w ->
  negb (String.eqb (or_else (RAG_USE_TITLES w) "1"%string) "0"
        || String.eqb (or_else (RAG_USE_TITLES w) "1"%string) "false"
        || String.eqb (or_else (RAG_USE_TITLES w) "1"%string) "False")
  = true.
Proof.
  intros [H0 [H1 H2]]. destruct (RAG_USE_TITLES w) as [s|]; [|reflexivity].
  simpl. apply negb_true_iff. apply orb_false_iff. split;
    [apply orb_false_iff; split|]; apply String.eqb_neq; congruence.
Qed.

(** A [titles.npy] written by [build_titles.py] from the same [meta.json]
    is accepted by the constructor: unless [RAG_USE_TITLES] switches it
    off, the retriever has [use_titles = True], the table as its title
    vectors and one title per row. *)
Theorem built_title_table_is_accepted w k idx chunks encode :
  knobs_parse w ->
  titles_wanted w ->
  INDEX_PATH w = Some idx ->
  META_PATH w = Some chunks ->
  TITLES_NPY w = Some (Some (build_titles encode chunks)) ->
  exists self,
    __init__ w k = Return self /\
    use_titles self = true /\
    _titles_vecs self = Some (build_titles encode chunks) /\
    _titles_list self = fst (collect_titles chunks) /\
    List.length (build_titles encode chunks)
    = List.length (_titles_list self).
Proof.
  intros K Wt Hi Hm Ht.
  destruct K as [K1 [K2 [K3 [K4 [K5 [K6 [K7 K8]]]]]]].
  unfold __init__.
  read_ok (RAG_ALPHA w) (6 # 10) K1.
  read_ok (RAG_VEC_K w) (Z.max (k * 5) 50) K2.
  read_ok (RAG_BM25_K w) (Z.max (k * 5) 50) K3.
  read_ok (RAG_MMR_LAMBDA w) (6 # 10) K4.
  read_ok (RAG_MMR_POOL w) (Z.max (k * 3) 15) K5.
  read_ok (RAG_RERANK_FROM w) (Z.max (k * 5) 20) K6.
  read_ok (RAG_TITLE_BOOST w) (1 # 4) K7.
  read_ok (RAG_TITLE_K w) 64%Z K8.
  rewrite Hi, Hm, Ht. cbv zeta. rewrite (use_titles_wanted w Wt).
  assert (L : List.length (build_titles encode chunks)
              = List.length (fst (collect_titles chunks)))
    by (unfold build_titles; now rewrite length_map).
  rewrite L, Nat.eqb_refl. simpl negb. cbv iota.
  eexists. split; [reflexivity|]. simpl. auto.
Qed.

Lemma built_title_table_is_accepted_witness :
  exists self,
    __init__ (Fixture.with_titles
                (Some (Some (build_titles Fixture.embed Fixture.chunks)))
                Fixture.world) 4 = Return self /\
    use_titles self = true /\
    _titles_list self = ["Alpha"; "Beta"]%string.
Proof.
  destruct (built_title_table_is_accepted
              (Fixture.with_titles
                 (Some (Some (build_titles Fixture.embed Fixture.chunks)))
                 Fixture.world) 4 Fixture.chunk_index Fixture.chunks
              Fixture.embed) as [self [H [U [_ [T _]]]]].
  - repeat split; discriminate.
  - repeat split; discriminate.
  - reflexivity.
  - reflexivity.
  - reflexivity.
  - exists self. split; [exact H|]. split; [exact U|].
    rewrite T. vm_compute. reflexivity.
Defined.

(** ** Size of the title boost *)





(** ** The ranking without title boost is the ranking by fused score *)

Lemma zip_rows_positions c v b f t tot :
  List.length v = List.length c -> List.length b = List.length c ->
  List.length f = List.length c -> List.length t = List.length c ->
  List.length tot = List.length c ->
  zip_rows c v b f t tot
  = map (fun i => mkRow (nth i c O) (nth i v 0) (nth i b 0) (nth i f 0)
                        (nth i t 0) (nth i tot 0))
        (seq 0 (List.length c)).
Proof.
  intros Lv Lb Lf Lt Ltot. apply nth_error_ext. intros j.
  rewrite nth_error_map.
  destruct (Nat.lt_ge_cases j (List.length c)) as [Hj|Hj].
  - rewrite nth_error_seq. destruct (Nat.ltb_spec j (List.length c)); [|lia].
    simpl.
    destruct (nth_error (zip_rows c v b f t tot) j) as [r|] eqn:E.
    + apply zip_rows_nth in E.
      destruct E as [Hc [Hv [Hb [Hf [Ht Htot]]]]].
      rewrite (nth_error_nth _ _ O Hc), (nth_error_nth _ _ 0 Hv),
        (nth_error_nth _ _ 0 Hb), (nth_error_nth _ _ 0 Hf),
        (nth_error_nth _ _ 0 Ht), (nth_error_nth _ _ 0 Htot).
      destruct r; reflexivity.
    + apply nth_error_None in E. rewrite zip_rows_length in E by assumption.
      lia.
  - rewrite (proj2 (nth_error_None _ _))
      by (rewrite zip_rows_length by assumption; exact Hj).
    rewrite (proj2 (nth_error_None (seq 0 (List.length c)) j))
      by (rewrite length_seq; exact Hj).
    reflexivity.
Qed.

(** With title boosting off, the chunk offsets of the ranking returned by
    [_hybrid_rank] are the candidates ranked by fused score alone. *)
Theorem _hybrid_rank_is_fused_ranking self query ranked :
  use_titles self = false ->
  _hybrid_rank self query = Return ranked ->
  ranked <> [] ->
  map chunk_idx ranked
  = fused_ranking (alpha_hybrid self) (cand_list self query)
                  (v_arr self query) (b_arr self query).
Proof.
  intros U H N. unfold _hybrid_rank in H.
  destruct (meta self) as [|m ms]; [inversion H; congruence|].
  destruct (cand_list self query) as [|c0 cs] eqn:Ec;
    [inversion H; congruence|].
  rewrite <- Ec in *.
  rewrite (title_boosts_off self query U) in H. simpl bind in H.
  inversion H; subst ranked; clear H.
  destruct (cand_arr_lengths self query) as [Lv Lb].
  set (fused := fuse (alpha_hybrid self) (v_arr self query)
                     (b_arr self query)) in *.
  set (zeros := map (fun _ : nat => 0) (cand_list self query)) in *.
  assert (Lf : List.length fused = List.length (cand_list self query))
    by (unfold fused; rewrite fuse_length; congruence).
  assert (Lz : List.length zeros = List.length (cand_list self query))
    by (unfold zeros; now rewrite length_map).
  assert (Lt : List.length (map2 Qplus fused zeros)
               = List.length (cand_list self query))
    by (rewrite map2_length; congruence).
  rewrite zip_rows_positions by (rewrite ?_minmax_length; auto).
  rewrite sort_desc_map, map_map. cbn [chunk_idx total_score].
  unfold fused_ranking. fold fused.
  rewrite ranking_positions by congruence.
  f_equal. unfold argsort_desc. rewrite Lf.
  apply sort_desc_ext. intros i j Hi Hj.
  apply in_seq in Hi. apply in_seq in Hj.
  apply Qlt_bool_ext.
  rewrite !(nth_map2 Qplus fused zeros _ 0 0 0) by lia.
  unfold zeros.
  rewrite !(nth_map_in (fun _ : nat => 0) (cand_list self query) _ O 0) by lia.
  rewrite !Qplus_0_r. reflexivity.
Qed.

Lemma _hybrid_rank_is_fused_ranking_witness :
  exists ranked,
    _hybrid_rank Fixture.retriever "alpha" = Return ranked /\
    map chunk_idx ranked
    = fused_ranking (alpha_hybrid Fixture.retriever)
                    (cand_list Fixture.retriever "alpha")
                    (v_arr Fixture.retriever "alpha")
                    (b_arr Fixture.retriever "alpha").
Proof.
  destruct (_hybrid_rank Fixture.retriever "alpha") as [e|ranked] eqn:E;
    [vm_compute in E; discriminate|].
  exists ranked. split; [reflexivity|].
  apply _hybrid_rank_is_fused_ranking; [reflexivity|exact E|].
  vm_compute in E. inversion E. discriminate.
Defined.

(** * The fallback ranker *)

(** ** Counting occurrences *)

Lemma prefix_of_spec p s :
  prefix_of p s = true <-> exists post, s = p ++ post.
Proof.
  revert s. induction p as [|a p IH]; intros s; simpl.
  - split; [intros _; now exists s|reflexivity].
  - destruct s as [|b s].
    + split; [discriminate|intros [post H]; discriminate].
    + rewrite andb_true_iff, Ascii.eqb_eq, IH. split.
      * intros [-> [post ->]]. now exists post.
      * intros [post H]. inversion H. eauto.
Qed.

Lemma count_from_occurs sub s : forall skip,
  (0 < count_from sub s skip)%nat ->
  exists pre post, s = pre ++ sub ++ post.
Proof.
  induction s as [|c r IH]; intros skip H; simpl in H; [lia|].
  assert (Tail : forall k, (0 < count_from sub r k)%nat ->
                      exists pre post, c :: r = pre ++ sub ++ post).
  { intros k Hk. destruct (IH k Hk) as [pre [post E]].
    exists (c :: pre), post. now rewrite E. }
  destruct skip as [|k]; [|now apply (Tail k)].
  destruct (prefix_of sub (c :: r)) eqn:P; [|now apply (Tail O)].
  apply prefix_of_spec in P. destruct P as [post E].
  exists [], post. exact E.
Qed.

Lemma occurs_count_from sub pre : forall s post,
  sub <> [] -> s = pre ++ sub ++ post ->
  (0 < count_from sub s O)%nat.
Proof.
  induction pre as [|a pre IH]; intros s post N E.
  - simpl in E. destruct sub as [|b sub]; [congruence|].
    subst s. cbn [app count_from].
    replace (prefix_of (b :: sub) (b :: sub ++ post)) with true; [lia|].
    symmetry. apply prefix_of_spec. now exists post.
  - subst s. cbn [app count_from].
    destruct (prefix_of sub (a :: pre ++ sub ++ post)); [lia|].
    now apply (IH _ post).
Qed.

Lemma fold_add_pos {A} (f : A -> nat) l : forall acc,
  (0 < fold_left (fun s w => (s + f w)%nat) l acc)%nat <->
  (0 < acc)%nat \/ exists w, In w l /\ (0 < f w)%nat.
Proof.
  induction l as [|x r IH]; intros acc; simpl.
  - split; [auto|]. intros [H|[w [[] _]]]. exact H.
  - rewrite IH. split.
    + intros [H|[w [Hw Hf]]].
      * destruct (Nat.eq_dec acc 0) as [->|Hn]; [|left; lia].
        right. exists x. split; [now left|lia].
      * right. exists w. split; [now right|exact Hf].
    + intros [H|[w [[<-|Hw] Hf]]].
      * left. lia.
      * left. lia.
      * right. eauto.
Qed.

Lemma _score_chunk_fold query chunk :
  _score_chunk query chunk
  = fold_left (fun score w => (score + str_count (lower chunk) w)%nat)
              (query_words query) O.
Proof.
  unfold _score_chunk. destruct (query_words query); reflexivity.
Qed.

Lemma findall_alnum_nonempty s w :
  In w (findall_alnum s) -> list_ascii_of_string w <> [].
Proof.
  unfold findall_alnum. intros H. apply in_map_iff in H.
  destruct H as [l [<- Hl]].
  pose proof (runs_tokens isalnum (list_ascii_of_string s) []
                          (Forall_nil _)) as F.
  rewrite Forall_forall in F. destruct (F l Hl) as [N _].
  now rewrite list_ascii_of_string_of_list_ascii.
Qed.

Lemma str_count_pos c w :
  list_ascii_of_string w <> [] ->
  ((0 < str_count c w)%nat <-> occurs_in w c).
Proof.
  intros N. unfold str_count, occurs_in.
  destruct w as [|a w']; [simpl in N; congruence|].
  split.
  - apply count_from_occurs.
  - intros [pre [post E]]. eapply occurs_count_from; eauto.
Qed.

Lemma query_words_In query w :
  In w (query_words query) <->
  In w (findall_alnum (lower query)) /\ ~ In w _STOP.
Proof.
  unfold query_words. rewrite filter_In, negb_true_iff.
  split; intros [H1 H2]; split; auto.
  - intros Hs. assert (E : existsb (String.eqb w) _STOP = true).
    { apply existsb_exists. exists w. split; [exact Hs|].
      apply String.eqb_refl. }
    congruence.
  - destruct (existsb (String.eqb w) _STOP) eqn:E; [|reflexivity].
    apply existsb_exists in E. destruct E as [x [Hx Ex]].
    apply String.eqb_eq in Ex. subst x. contradiction.
Qed.

(** A chunk scores above 0 exactly when one of the alphanumeric tokens of
    the lower-cased query that is not a stop word occurs in the lower-cased
    chunk as a substring; a query made of stop words and punctuation only
    scores 0 on every chunk. *)
Theorem _score_chunk_positive query chunk :
  ((0 < _score_chunk query chunk)%nat <->
   exists w, In w (findall_alnum (lower query)) /\ ~ In w _STOP /\
        occurs_in w (lower chunk)) /\
  ((forall w, In w (findall_alnum (lower query)) -> In w _STOP) ->
   _score_chunk query chunk = O).
Proof.
  assert (P : (0 < _score_chunk query chunk)%nat <->
              exists w, In w (findall_alnum (lower query)) /\ ~ In w _STOP /\
                   occurs_in w (lower chunk)).
  { rewrite _score_chunk_fold, fold_add_pos. split.
    - intros [H|[w [Hw Hc]]]; [lia|].
      apply query_words_In in Hw. destruct Hw as [H1 H2].
      exists w. split; [exact H1|]. split; [exact H2|].
      apply str_count_pos; [|exact Hc].
      eapply findall_alnum_nonempty; eauto.
    - intros [w [H1 [H2 Ho]]]. right. exists w. split.
      + apply query_words_In. auto.
      + apply str_count_pos; [|exact Ho].
        eapply findall_alnum_nonempty; eauto. }
  split; [exact P|].
  intros Hs. destruct (Nat.eq_dec (_score_chunk query chunk) 0) as [E|N];
    [exact E|].
  exfalso. assert (H : (0 < _score_chunk query chunk)%nat) by lia.
  apply P in H. destruct H as [w [H1 [H2 _]]]. apply H2. now apply Hs.
Qed.

Lemma _score_chunk_positive_witness :
  _score_chunk "the of" "the theory of the thing" = O.
Proof.
  apply (proj2 (_score_chunk_positive "the of" "the theory of the thing")).
  intros w Hw. vm_compute in Hw.
  repeat (destruct Hw as [<-|Hw]); try contradiction;
    vm_compute; intuition auto.
Defined.

(** ** Sorting and filtering *)

Lemma StronglySorted_filter {A} (R : A -> A -> Prop) p l :
  StronglySorted R l -> StronglySorted R (filter p l).
Proof.
  induction l as [|x r IH]; intros S; simpl; [constructor|].
  inversion S as [|x' r' Sr Fx]; subst.
  destruct (p x); [|now apply IH].
  constructor; [now apply IH|].
  apply Forall_forall. intros z Hz. apply filter_In in Hz.
  rewrite Forall_forall in Fx. now apply Fx.
Qed.

Lemma StronglySorted_firstn {A} (R : A -> A -> Prop) n l :
  StronglySorted R l -> StronglySorted R (firstn n l).
Proof.
  revert n. induction l as [|x r IH]; intros [|n] S; simpl;
    try constructor.
  - inversion S; subst. now apply IH.
  - inversion S as [|x' r' Sr Fx]; subst.
    apply Forall_forall. intros z Hz. apply firstn_incl in Hz.
    rewrite Forall_forall in Fx. now apply Fx.
Qed.

Lemma StronglySorted_slice_to {A} (R : A -> A -> Prop) n l :
  StronglySorted R l -> StronglySorted R (slice_to n l).
Proof.
  intros S. unfold slice_to.
  destruct (0 <=? n)%Z; now apply StronglySorted_firstn.
Qed.

Lemma StronglySorted_any {A} (l : list A) :
  StronglySorted (fun _ _ => True) l.
Proof.
  induction l as [|x r IH]; constructor; [exact IH|].
  apply Forall_forall. auto.
Qed.

Lemma sort_desc_descending {A} (key : A -> Q) l :
  StronglySorted (fun a b => key b <= key a) (sort_desc key l).
Proof.
  pose proof (sort_desc_sorted A key (fun _ _ => True) l
                               (StronglySorted_any l)) as S.
  induction S as [|x r Sr IH Fx]; constructor; [exact IH|].
  eapply Forall_impl; [|exact Fx]. intros z Hz. apply Hz.
Qed.

Lemma insert_desc_head {A} (key : A -> Q) x l :
  (forall z, In z l -> key z <= key x) -> insert_desc key x l = x :: l.
Proof.
  intros H. destruct l as [|y r]; [reflexivity|]. simpl.
  destruct (Qlt_bool (key x) (key y)) eqn:E; [|reflexivity].
  apply Qlt_bool_iff in E. exfalso.
  apply (Qlt_not_le _ _ E). apply H. now left.
Qed.

Lemma filter_insert_desc {A} (key : A -> Q) p x l :
  StronglySorted (fun a b => key b <= key a) l ->
  filter p (insert_desc key x l)
  = if p x then insert_desc key x (filter p l) else filter p l.
Proof.
  induction l as [|y r IH]; intros S; simpl.
  - destruct (p x); reflexivity.
  - inversion S as [|y' r' Sr Fy]; subst.
    destruct (Qlt_bool (key x) (key y)) eqn:E.
    + simpl. rewrite (IH Sr). destruct (p y), (p x); try reflexivity.
      simpl. now rewrite E.
    + apply Qlt_bool_false in E. simpl.
      destruct (p x); [|reflexivity].
      symmetry. apply insert_desc_head. intros z Hz.
      assert (Hin : In z (y :: r)).
      { destruct (p y); [destruct Hz as [<-|Hz];
                         [now left|right]|right];
          apply filter_In in Hz; apply Hz. }
      destruct Hin as [<-|Hin]; [exact E|].
      rewrite Forall_forall in Fy. eapply Qle_trans; [now apply Fy|exact E].
Qed.

Lemma filter_sort_desc {A} (key : A -> Q) p l :
  filter p (sort_desc key l) = sort_desc key (filter p l).
Proof.
  induction l as [|x r IH]; simpl; [reflexivity|].
  rewrite filter_insert_desc by apply sort_desc_descending.
  rewrite IH. destruct (p x); reflexivity.
Qed.

Lemma filter_map_comm {A B} (f : A -> B) (p : B -> bool) l :
  filter p (map f l) = map f (filter (fun x => p (f x)) l).
Proof.
  induction l as [|x r IH]; simpl; [reflexivity|].
  rewrite IH. destruct (p (f x)); reflexivity.
Qed.

(** ** The two fallback rankers *)

Lemma score_key_le query (a b : KBEntry) :
  inject_Z (Z.of_nat (entry_score query b))
  <= inject_Z (Z.of_nat (entry_score query a)) <->
  (entry_score query b <= entry_score query a)%nat.
Proof.
  rewrite <- Zle_Qle. lia.
Qed.

(** The fallback path of [build_context_block] keeps at most
    [max(1, top_k)] entries of [KB_INDEX], all with a positive score, in
    descending order of score; when it keeps fewer than that, it keeps
    every entry with a positive score. *)
Theorem fallback_ranked_spec KB_INDEX query top_k :
  (List.length (fallback_ranked KB_INDEX query top_k)
   <= Z.to_nat (Z.max 1 top_k))%nat /\
  Forall (fun e => In e KB_INDEX /\ (0 < entry_score query e)%nat)
         (fallback_ranked KB_INDEX query top_k) /\
  StronglySorted (fun a b => (entry_score query b <= entry_score query a)%nat)
                 (fallback_ranked KB_INDEX query top_k) /\
  ((List.length (fallback_ranked KB_INDEX query top_k)
    < Z.to_nat (Z.max 1 top_k))%nat ->
   forall e, In e KB_INDEX -> (0 < entry_score query e)%nat ->
        In e (fallback_ranked KB_INDEX query top_k)).
Proof.
  unfold fallback_ranked.
  set (key := fun ch => inject_Z (Z.of_nat (entry_score query ch))).
  set (pos := fun r => (0 <? entry_score query r)%nat).
  set (kept := filter pos (sort_desc key KB_INDEX)).
  assert (Hk : (0 <= Z.max 1 top_k)%Z) by lia.
  split; [|split; [|split]].
  - rewrite slice_to_length by exact Hk. lia.
  - apply Forall_forall. intros e He. apply slice_to_incl in He.
    unfold kept in He. apply filter_In in He. destruct He as [He Hp].
    split; [now apply (proj1 (sort_desc_In _ key KB_INDEX e))|].
    unfold pos in Hp. now apply Nat.ltb_lt in Hp.
  - apply StronglySorted_slice_to. unfold kept.
    apply StronglySorted_filter.
    pose proof (sort_desc_descending key KB_INDEX) as S.
    induction S as [|x r Sr IH Fx]; constructor; [exact IH|].
    eapply Forall_impl; [|exact Fx]. intros z Hz.
    now apply (score_key_le query x z).
  - rewrite slice_to_length by exact Hk. intros Hl e He Hs.
    assert (Hall : slice_to (Z.max 1 top_k) kept = kept).
    { unfold slice_to.
      destruct (0 <=? Z.max 1 top_k)%Z eqn:E; [|apply Z.leb_gt in E; lia].
      apply firstn_all2. lia. }
    rewrite Hall. unfold kept. apply filter_In. split.
    + now apply (proj2 (sort_desc_In _ key KB_INDEX e)).
    + unfold pos. now apply Nat.ltb_lt.
Qed.

(** For [top_k >= 1] the fallback of [rag.py] (sort, then filter) and
    [_rag_query_local] of [chat_stream.py] (filter, then sort) select the
    same texts with the same scores in the same order. *)
Theorem fallback_rankers_agree KB_INDEX query top_k :
  (1 <= top_k)%Z ->
  map (fun e => (kb_text e, entry_score query e))
      (fallback_ranked KB_INDEX query top_k)
  = _rag_query_local KB_INDEX query top_k.
Proof.
  intros Hk. unfold fallback_ranked, _rag_query_local.
  replace (Z.max 1 top_k) with top_k by lia.
  replace (top_k =? 0)%Z with false by (symmetry; apply Z.eqb_neq; lia).
  rewrite slice_to_map. f_equal.
  rewrite filter_sort_desc.
  rewrite (filter_map_comm
             (fun entry => (kb_text entry, _score_chunk query (kb_text entry)))
             (fun s => (0 <? snd s)%nat)).
  rewrite sort_desc_map. reflexivity.
Qed.

Lemma fallback_rankers_agree_witness :
  map (fun e => (kb_text e, entry_score "beta alpha" e))
      (fallback_ranked [mkEntry "alpha beta" "a.txt"; mkEntry "gamma" "b.txt";
                        mkEntry "beta beta" "c.txt"] "beta alpha" 2)
  = _rag_query_local [mkEntry "alpha beta" "a.txt"; mkEntry "gamma" "b.txt";
                      mkEntry "beta beta" "c.txt"] "beta alpha" 2.
Proof.
  apply fallback_rankers_agree. lia.
Defined.

Lemma fallback_ranked_spec_witness :
  (List.length (fallback_ranked [mkEntry "alpha beta" "a.txt";
                                 mkEntry "gamma" "b.txt"] "beta" 3)
   < Z.to_nat (Z.max 1 3))%nat /\
  In (mkEntry "alpha beta" "a.txt")
     (fallback_ranked [mkEntry "alpha beta" "a.txt"; mkEntry "gamma" "b.txt"]
                      "beta" 3).
Proof.
  assert (L : (List.length (fallback_ranked [mkEntry "alpha beta" "a.txt";
                                             mkEntry "gamma" "b.txt"]
                                            "beta" 3)
               < Z.to_nat (Z.max 1 3))%nat) by (vm_compute; lia).
  split; [exact L|].
  apply (proj2 (proj2 (proj2 (fallback_ranked_spec
                                [mkEntry "alpha beta" "a.txt";
                                 mkEntry "gamma" "b.txt"] "beta" 3))) L).
  - now left.
  - vm_compute. lia.
Defined.

(** [_rag_query_local] returns pairs of a text of [KB_INDEX] and its
    positive score, in descending order of score; for [top_k >= 0] it
    returns at most [top_k] pairs, and at most 4 when [top_k] is 0. *)
Theorem _rag_query_local_spec KB_INDEX query top_k :
  Forall (fun t => (0 < snd t)%nat /\
                exists e, In e KB_INDEX /\ fst t = kb_text e /\
                     snd t = _score_chunk query (kb_text e))
         (_rag_query_local KB_INDEX query top_k) /\
  StronglySorted (fun a b => (snd b <= snd a)%nat)
                 (_rag_query_local KB_INDEX query top_k) /\
  ((0 <= top_k)%Z ->
   (List.length (_rag_query_local KB_INDEX query top_k)
    <= Z.to_nat (if (top_k =? 0)%Z then 4 else top_k))%nat).
Proof.
  unfold _rag_query_local. split; [|split].
  - apply Forall_forall. intros t Ht. apply slice_to_incl in Ht.
    match type of Ht with
    | In _ (sort_desc ?k ?l) => apply (proj1 (sort_desc_In _ k l t)) in Ht
    end.
    apply filter_In in Ht. destruct Ht as [Ht Hp].
    split; [now apply Nat.ltb_lt in Hp|].
    apply in_map_iff in Ht. destruct Ht as [e [<- He]].
    exists e. auto.
  - apply StronglySorted_slice_to.
    match goal with
    | |- StronglySorted _ (sort_desc ?k ?l) =>
        pose proof (sort_desc_descending k l) as S
    end.
    induction S as [|x r Sr IH Fx]; constructor; [exact IH|].
    eapply Forall_impl; [|exact Fx]. intros z Hz. cbv beta in Hz.
    rewrite <- Zle_Qle in Hz. lia.
  - intros Hk. rewrite slice_to_length
      by (destruct (top_k =? 0)%Z; lia).
    lia.
Qed.

Lemma _rag_query_local_spec_witness :
  (List.length (_rag_query_local [mkEntry "alpha beta" "a.txt";
                                  mkEntry "beta" "b.txt"] "beta" 0)
   <= 4)%nat.
Proof.
  apply (proj2 (proj2 (_rag_query_local_spec
                         [mkEntry "alpha beta" "a.txt";
                          mkEntry "beta" "b.txt"] "beta" 0))).
  lia.
Defined.

(** ** The context block of the fallback path *)

Lemma take_blocks_budget blocks max_chars : forall used,
  exists rest,
    blocks = take_blocks blocks used max_chars ++ rest /\
    (take_blocks blocks used max_chars <> [] ->
     (used + total_length (take_blocks blocks used max_chars)
      <= max_chars)%Z).
Proof.
  induction blocks as [|b r IH]; intros used; simpl.
  - exists []. split; [reflexivity|congruence].
  - destruct (used + Z.of_nat (String.length b) >? max_chars)%Z eqn:E.
    + exists (b :: r). split; [reflexivity|congruence].
    + destruct (IH (used + Z.of_nat (String.length b))%Z) as [rest [E1 E2]].
      exists rest. split; [simpl; now rewrite <- E1|].
      intros _. simpl.
      destruct (take_blocks r (used + Z.of_nat (String.length b)) max_chars)
        as [|b' r'] eqn:Et.
      * simpl. rewrite Z.gtb_ltb in E. apply Z.ltb_ge in E. lia.
      * specialize (E2 ltac:(discriminate)). simpl in E2. simpl. lia.
Qed.

(** The blocks put into the fallback context are the blocks of a prefix of
    the ranked entries, and their total length never exceeds
    [max_chars]. *)
Theorem take_blocks_within_budget blocks max_chars :
  (0 <= max_chars)%Z ->
  (exists rest, blocks = take_blocks blocks 0 max_chars ++ rest) /\
  (total_length (take_blocks blocks 0 max_chars) <= max_chars)%Z.
Proof.
  intros Hm. destruct (take_blocks_budget blocks max_chars 0%Z)
    as [rest [E B]].
  split; [now exists rest|].
  destruct (take_blocks blocks 0 max_chars) as [|b r] eqn:Et.
  - simpl. exact Hm.
  - specialize (B ltac:(discriminate)). lia.
Qed.

Lemma take_blocks_within_budget_witness :
  (total_length (take_blocks ["abcd"; "efg"; "hi"]%string 0 8) <= 8)%Z.
Proof.
  apply (proj2 (take_blocks_within_budget ["abcd"; "efg"; "hi"]%string 8
                                          ltac:(lia))).
Defined.




